(** * Grillz Designer: the [GRILLZ_OT_GenerateGrill] operator

    A shallow embedding of [grillz_designer_addon.py].  The operator reads
    the mesh being edited, copies the selected faces (or, failing that, the
    selected vertices) into a fresh mesh, wraps it in a new object and
    attaches five modifiers to it.

    The host application (its scene, its mesh builder, its modifier stack)
    is modelled by an explicit [World] that [execute] threads through.
    Floating-point scalars are idealised as rationals; they are only stored
    and compared.  Vertex positions are kept abstract: the operator copies
    them and leaves all arithmetic on them to the host. *)

From Stdlib Require Import QArith.
From stdpp Require Import gmap strings list fin_maps.
Close Scope Q_scope.

(** ** Host data model *)

(** The vector arithmetic the host performs when it moves an object's
    origin to the centre of its bounding box. *)
Class Vector (Co : Type) := {
  co_zero : Co;
  co_add : Co → Co → Co;
  co_sub : Co → Co → Co;
  bounds_center : list Co → Co
}.

(** Python exceptions that can leave [execute]. *)
Inductive PyExc := TypeError | ValueError | ReferenceError.

(** [context.mode] *)
Inductive Mode := OBJECT | EDIT_MESH | EDIT_CURVE | SCULPT | POSE.

(** [object.type] *)
Inductive ObjectType := MESH | CURVE | EMPTY | CAMERA | LIGHT.

(** The return sets of an operator, and what a call ends with. *)
Inductive OperatorReturn := CANCELLED | FINISHED.
Inductive Outcome := Returned (r : OperatorReturn) | Raised (e : PyExc).

Inductive ReportType := INFO | WARNING.

Inductive ModifierType := WELD | SOLIDIFY | REMESH | LAPLACIANSMOOTH | DECIMATE.

(** Values assigned to modifier attributes. *)
Inductive Value :=
| VFloat (q : Q)
| VInt (z : Z)
| VBool (b : bool)
| VEnum (s : string).

(** A modifier: its name, its kind and the attributes that were assigned
    on it (attributes never assigned keep the host's defaults, which are
    not modelled). *)
Record Modifier := {
  md_name : string;
  md_type : ModifierType;
  md_attrs : list (string * Value)
}.

(** [mod.attr = v] on the attribute record of one modifier. *)
Fixpoint setattr (attr : string) (v : Value) (attrs : list (string * Value))
    : list (string * Value) :=
  match attrs with
  | [] => [(attr, v)]
  | (a, x) :: rest =>
    if String.eqb a attr then (a, v) :: rest
    else (a, x) :: setattr attr v rest
  end.

(** [mod.attr], when it was assigned. *)
Fixpoint getattr (attr : string) (attrs : list (string * Value))
    : option Value :=
  match attrs with
  | [] => None
  | (a, x) :: rest => if String.eqb a attr then Some x else getattr attr rest
  end.

#[global] Instance Mode_eq_dec : EqDecision Mode.
Proof. solve_decision. Defined.
#[global] Instance ObjectType_eq_dec : EqDecision ObjectType.
Proof. solve_decision. Defined.

(** Whether the vertex list [vs] runs through the same cycle as [ws]: the
    same vertices in the same cyclic order, in either winding. *)
Definition same_cycle (vs ws : list nat) : bool :=
  existsb (λ n, bool_decide (vs = rotate n ws)
                || bool_decide (vs = rotate n (reverse ws)))
          (seq 0 (length ws)).

Section Host.
Context {Co : Type} `{!Vector Co}.

(** A vertex of a [bmesh]: position and selection flag.  A vertex is
    identified by its index in [verts]. *)
Record BMVert := { co : Co; v_select : bool }.

(** A face: its vertices in winding order (indices into [verts]) and its
    selection flag. *)
Record BMFace := { f_verts : list nat; f_select : bool }.

Record BMesh := { verts : list BMVert; faces : list BMFace }.

(** A mesh data-block of [bpy.data.meshes]. *)
Record Mesh := { me_name : string; me_geom : BMesh }.

(** An object of [bpy.data.objects]; [ob_data] indexes [bpy.data.meshes]. *)
Record Object := {
  ob_name : string;
  ob_type : ObjectType;
  ob_data : nat;
  ob_select : bool;
  ob_location : Co;
  ob_modifiers : list Modifier
}.

(** The part of the host's state the operator reads or writes. *)
Record World := {
  mode : Mode;                           (* context.mode *)
  edit_object : option nat;              (* context.edit_object *)
  active_object : option nat;            (* context.view_layer.objects.active *)
  meshes : list Mesh;                    (* bpy.data.meshes *)
  objects : list Object;                 (* bpy.data.objects *)
  collection : list nat;                 (* context.collection.objects *)
  reports : list (ReportType * string)   (* self.report *)
}.

(** ** Host operations *)

(** [self.report({ty}, msg)] *)
Definition report (ty : ReportType) (msg : string) (w : World) : World :=
  {| mode := mode w; edit_object := edit_object w;
     active_object := active_object w; meshes := meshes w;
     objects := objects w; collection := collection w;
     reports := reports w ++ [(ty, msg)] |}.

Definition set_meshes (ms : list Mesh) (w : World) : World :=
  {| mode := mode w; edit_object := edit_object w;
     active_object := active_object w; meshes := ms;
     objects := objects w; collection := collection w;
     reports := reports w |}.

Definition set_objects (os : list Object) (w : World) : World :=
  {| mode := mode w; edit_object := edit_object w;
     active_object := active_object w; meshes := meshes w;
     objects := os; collection := collection w;
     reports := reports w |}.

(** [bmesh.new()] *)
Definition bmesh_new : BMesh := {| verts := []; faces := [] |}.

(** [bm.verts.new(co)]: the mesh with the vertex appended, and the new
    vertex. *)
Definition verts_new (bm : BMesh) (c : Co) : BMesh * nat :=
  ({| verts := verts bm ++ [{| co := c; v_select := false |}];
      faces := faces bm |},
   length (verts bm)).

(** Whether [bm] already has a face through the cycle [vs]. *)
Definition face_exists (bm : BMesh) (vs : list nat) : bool :=
  existsb (λ f, same_cycle vs (f_verts f)) (faces bm).

(** Modelled from the spec: the host's face constructor [bm.faces.new(verts)],
    which is not part of this repository.  The spec leaves degenerate faces to
    "the output-mesh constructor" to fail on: the constructor refuses a vertex
    list with fewer than three entries and one that names a vertex twice.
    The spec says nothing of duplicate faces; there the model follows the
    host, which refuses a face when the mesh already has a face through the
    same vertex cycle (in either winding) and accepts a face over the same
    vertices in another cyclic order.  An accepted face is appended,
    unselected, with the given winding. *)
Definition faces_new (bm : BMesh) (vs : list nat) : PyExc + BMesh :=
  if length vs <? 3 then inl TypeError
  else if negb (bool_decide (NoDup vs)) then inl ValueError
  else if face_exists bm vs then inl ValueError
  else inr {| verts := verts bm;
              faces := faces bm ++ [{| f_verts := vs; f_select := false |}] |}.

(** [bpy.data.meshes.new(name)]: a new, empty data-block; returns its index. *)
Definition meshes_new (name : string) (w : World) : World * nat :=
  (set_meshes (meshes w ++ [{| me_name := name; me_geom := bmesh_new |}]) w,
   length (meshes w)).

(** [new_bm.to_mesh(new_mesh)] *)
Definition to_mesh (new_bm : BMesh) (new_mesh : nat) (w : World) : World :=
  set_meshes
    (alter (λ m, {| me_name := me_name m; me_geom := new_bm |}) new_mesh (meshes w))
    w.

(** [bpy.data.objects.new(name, mesh)]: returns the new object's index. *)
Definition objects_new (name : string) (mesh : nat) (w : World) : World * nat :=
  (set_objects
     (objects w ++ [{| ob_name := name; ob_type := MESH; ob_data := mesh;
                       ob_select := false; ob_location := co_zero;
                       ob_modifiers := [] |}]) w,
   length (objects w)).

(** [context.collection.objects.link(ob)] *)
Definition collection_link (ob : nat) (w : World) : World :=
  {| mode := mode w; edit_object := edit_object w;
     active_object := active_object w; meshes := meshes w;
     objects := objects w; collection := collection w ++ [ob];
     reports := reports w |}.

(** [bpy.ops.object.mode_set(mode='OBJECT')] *)
Definition mode_set_OBJECT (w : World) : World :=
  {| mode := OBJECT; edit_object := None;
     active_object := active_object w; meshes := meshes w;
     objects := objects w; collection := collection w;
     reports := reports w |}.

Definition with_select (b : bool) (o : Object) : Object :=
  {| ob_name := ob_name o; ob_type := ob_type o; ob_data := ob_data o;
     ob_select := b; ob_location := ob_location o;
     ob_modifiers := ob_modifiers o |}.

(** [bpy.ops.object.select_all(action='DESELECT')] *)
Definition select_all_DESELECT (w : World) : World :=
  set_objects (with_select false <$> objects w) w.

(** [ob.select_set(True)] *)
Definition select_set_True (ob : nat) (w : World) : World :=
  set_objects (alter (with_select true) ob (objects w)) w.

(** [context.view_layer.objects.active = ob] *)
Definition set_active (ob : nat) (w : World) : World :=
  {| mode := mode w; edit_object := edit_object w;
     active_object := Some ob; meshes := meshes w;
     objects := objects w; collection := collection w;
     reports := reports w |}.

(** Moving the origin of one mesh to the centre of its bounds: every vertex
    is translated by the centre. *)
Definition recenter (c : Co) (bm : BMesh) : BMesh :=
  {| verts := (λ v, {| co := co_sub (co v) c; v_select := v_select v |}) <$> verts bm;
     faces := faces bm |}.

Definition origin_set_object (w : World) (i : nat) : World :=
  match objects w !! i with
  | Some o =>
    if ob_select o && bool_decide (ob_type o = MESH) then
      match meshes w !! ob_data o with
      | Some m =>
        let c := bounds_center (co <$> verts (me_geom m)) in
        set_objects
          (alter (λ o, {| ob_name := ob_name o; ob_type := ob_type o;
                          ob_data := ob_data o; ob_select := ob_select o;
                          ob_location := co_add (ob_location o) c;
                          ob_modifiers := ob_modifiers o |}) i (objects w))
          (set_meshes
             (alter (λ m, {| me_name := me_name m;
                             me_geom := recenter c (me_geom m) |})
                    (ob_data o) (meshes w)) w)
      | None => w
      end
    else w
  | None => w
  end.

(** [bpy.ops.object.origin_set(type='ORIGIN_GEOMETRY', center='BOUNDS')]:
    acts on every selected mesh object. *)
Definition origin_set (w : World) : World :=
  foldl origin_set_object w (seq 0 (length (objects w))).

Definition with_modifiers (f : list Modifier → list Modifier) (o : Object)
    : Object :=
  {| ob_name := ob_name o; ob_type := ob_type o; ob_data := ob_data o;
     ob_select := ob_select o; ob_location := ob_location o;
     ob_modifiers := f (ob_modifiers o) |}.

(** [ob.modifiers.new(name=name, type=ty)]: the modifier is appended to the
    object's stack. *)
Definition modifiers_new (ob : nat) (name : string) (ty : ModifierType)
    (w : World) : World :=
  set_objects
    (alter (with_modifiers
              (λ mds, mds ++ [{| md_name := name; md_type := ty; md_attrs := [] |}]))
           ob (objects w)) w.

Definition set_last_attr (attr : string) (v : Value) (mds : list Modifier)
    : list Modifier :=
  alter (λ md, {| md_name := md_name md; md_type := md_type md;
                  md_attrs := setattr attr v (md_attrs md) |})
        (pred (length mds)) mds.

(** [mod.attr = v] on the modifier most recently added to object [ob]. *)
Definition mod_set (ob : nat) (attr : string) (v : Value) (w : World) : World :=
  set_objects (alter (with_modifiers (set_last_attr attr v)) ob (objects w)) w.

End Host.

Arguments BMVert : clear implicits.
Arguments BMesh : clear implicits.
Arguments Mesh : clear implicits.
Arguments Object : clear implicits.
Arguments World : clear implicits.

(** ** Operator properties *)

(** [bpy.props.FloatProperty(default=, min=, max=)] *)
Record FloatProperty := { fp_default : Q; fp_min : Q; fp_max : Q }.

(** Modelled from the spec: the host's property system, which is not part of
    this repository.  Each parameter is "independently range-clamped by the
    host": a value assigned to a property below its [min] is stored as [min],
    one above its [max] as [max]. *)
Definition prop_assign (p : FloatProperty) (v : Q) : Q :=
  if negb (Qle_bool (fp_min p) v) then fp_min p
  else if negb (Qle_bool v (fp_max p)) then fp_max p
  else v.

Definition thickness_prop : FloatProperty :=
  {| fp_default := 6 # 10; fp_min := 2 # 10; fp_max := 5 # 1 |}.

Definition remesh_voxel_size_prop : FloatProperty :=
  {| fp_default := 1 # 10; fp_min := 1 # 100; fp_max := 1 # 1 |}.

Definition decimate_ratio_prop : FloatProperty :=
  {| fp_default := 5 # 10; fp_min := 5 # 100; fp_max := 1 # 1 |}.

(** An instance of the operator: the values of its three properties. *)
Record GRILLZ_OT_GenerateGrill := {
  thickness : Q;
  remesh_voxel_size : Q;
  decimate_ratio : Q
}.

(** Creating the operator with the given keyword arguments (as the panel's
    button and [bpy.ops.grillz.generate_base(...)] do); a property that is
    not given takes its default. *)
Definition operator_new (t v r : option Q) : GRILLZ_OT_GenerateGrill :=
  {| thickness := from_option (prop_assign thickness_prop)
                              (fp_default thickness_prop) t;
     remesh_voxel_size := from_option (prop_assign remesh_voxel_size_prop)
                                      (fp_default remesh_voxel_size_prop) v;
     decimate_ratio := from_option (prop_assign decimate_ratio_prop)
                                   (fp_default decimate_ratio_prop) r |}.

(** ** The geometry copy *)

(** A left fold that stops at the first exception. *)
Fixpoint foldlM {A B : Type} (f : A → B → PyExc + A) (a : A) (l : list B)
    : PyExc + A :=
  match l with
  | [] => inr a
  | x :: l' =>
    match f a x with
    | inl e => inl e
    | inr a' => foldlM f a' l'
    end
  end.

Section Operator.
Context {Co : Type} `{!Vector Co}.

(** The body of [for vert in face.verts].  The state is the new bmesh,
    [vert_map] and [new_verts].  A face vertex that names no vertex of the
    mesh cannot be produced by the host; the model raises on it. *)
Definition copy_vert (bm : BMesh Co)
    (st : BMesh Co * gmap nat nat * list nat) (vert : nat)
    : PyExc + (BMesh Co * gmap nat nat * list nat) :=
  let '(new_bm, vert_map, new_verts) := st in
  match verts bm !! vert with
  | None => inl ReferenceError
  | Some v =>
    match vert_map !! vert with
    | Some new_v => inr (new_bm, vert_map, new_verts ++ [new_v])
    | None =>
      let '(new_bm', new_v) := verts_new new_bm (co v) in
      inr (new_bm', <[vert := new_v]> vert_map, new_verts ++ [new_v])
    end
  end.

(** The body of [for face in bm.faces]. *)
Definition copy_face (bm : BMesh Co) (st : BMesh Co * gmap nat nat)
    (face : BMFace) : PyExc + (BMesh Co * gmap nat nat) :=
  let '(new_bm, vert_map) := st in
  if f_select face then
    match foldlM (copy_vert bm) (new_bm, vert_map, []) (f_verts face) with
    | inl e => inl e
    | inr (new_bm', vert_map', new_verts) =>
      match faces_new new_bm' new_verts with
      | inl e => inl e
      | inr new_bm'' => inr (new_bm'', vert_map')
      end
    end
  else inr st.

(** "Copy selected faces and their vertices to the new BMesh". *)
Definition copy_selected_faces (bm : BMesh Co)
    : PyExc + (BMesh Co * gmap nat nat) :=
  foldlM (copy_face bm) (bmesh_new, ∅) (faces bm).

(** "If no faces were selected (only verts or edges), copy just the verts":
    the body of the [if not new_bm.faces] branch. *)
Definition copy_selected_verts (bm new_bm : BMesh Co) : BMesh Co :=
  foldl (λ nb vert, if v_select vert then (verts_new nb (co vert)).1 else nb)
        new_bm (verts bm).

(** The whole copy, from [new_bm = bmesh.new()] to just before
    [new_bm.to_mesh(new_mesh)]. *)
Definition extract (bm : BMesh Co) : PyExc + BMesh Co :=
  match copy_selected_faces bm with
  | inl e => inl e
  | inr (new_bm, _) =>
    match faces new_bm with
    | [] => inr (copy_selected_verts bm new_bm)
    | _ :: _ => inr new_bm
    end
  end.

(** ** The modifier stack *)

Definition add_modifiers (self : GRILLZ_OT_GenerateGrill) (grill_object : nat)
    (w : World Co) : World Co :=
  let w := modifiers_new grill_object "Grill_Weld" WELD w in
  let w := mod_set grill_object "merge_threshold" (VFloat (1 # 100)) w in
  let w := modifiers_new grill_object "Grill_Thickness" SOLIDIFY w in
  let w := mod_set grill_object "thickness" (VFloat (thickness self)) w in
  let w := mod_set grill_object "offset" (VInt 1) w in
  let w := modifiers_new grill_object "Grill_Remesh" REMESH w in
  let w := mod_set grill_object "mode" (VEnum "VOXEL") w in
  let w := mod_set grill_object "voxel_size" (VFloat (remesh_voxel_size self)) w in
  let w := mod_set grill_object "use_remove_disconnected" (VBool true) w in
  let w := modifiers_new grill_object "Grill_LaplacianSmooth" LAPLACIANSMOOTH w in
  let w := mod_set grill_object "iterations" (VInt 5) w in
  let w := mod_set grill_object "use_volume_preserve" (VBool true) w in
  let w := modifiers_new grill_object "Grill_Decimate" DECIMATE w in
  let w := mod_set grill_object "ratio" (VFloat (decimate_ratio self)) w in
  w.

(** ** [GRILLZ_OT_GenerateGrill.execute] *)

Definition execute (self : GRILLZ_OT_GenerateGrill) (w : World Co)
    : World Co * Outcome :=
  (* 1. validation *)
  if negb (bool_decide (mode w = EDIT_MESH)) then
    (report WARNING "Please switch to Edit Mode to select teeth." w,
     Returned CANCELLED)
  else
  match edit_object w ≫= (objects w !!.) with
  | None =>
    (report WARNING "An editable mesh object must be active." w,
     Returned CANCELLED)
  | Some source_obj =>
    if negb (bool_decide (ob_type source_obj = MESH)) then
      (report WARNING "An editable mesh object must be active." w,
       Returned CANCELLED)
    else
    (* 2. non-destructive geometry copy *)
    match meshes w !! ob_data source_obj with   (* bmesh.from_edit_mesh *)
    | None => (w, Raised ReferenceError)
    | Some source_mesh =>
      let bm := me_geom source_mesh in
      if negb (existsb v_select (verts bm)) then
        (report WARNING "You must select the teeth vertices first." w,
         Returned CANCELLED)
      else
      let '(w, new_mesh) := meshes_new "Grill_Base_Mesh" w in
      match extract bm with
      | inl e => (w, Raised e)
      | inr new_bm =>
        let w := to_mesh new_bm new_mesh w in
        let '(w, grill_object) := objects_new "Grill_Base" new_mesh w in
        let w := collection_link grill_object w in
        (* 3. prepare the new object *)
        let w := mode_set_OBJECT w in
        let w := select_all_DESELECT w in
        let w := select_set_True grill_object w in
        let w := set_active grill_object w in
        (* 4. fix the origin *)
        let w := origin_set w in
        (* 5. the modifier stack *)
        let w := add_modifiers self grill_object w in
        (report INFO "Non-destructively generated Grill_Base object." w,
         Returned FINISHED)
      end
    end
  end.

End Operator.

(** ** Vocabulary of the statements *)

(** The modifier stack [execute] builds, written out. *)
Definition modifier_stack (self : GRILLZ_OT_GenerateGrill) : list Modifier :=
  [ {| md_name := "Grill_Weld"; md_type := WELD;
       md_attrs := [("merge_threshold", VFloat (1 # 100))] |};
    {| md_name := "Grill_Thickness"; md_type := SOLIDIFY;
       md_attrs := [("thickness", VFloat (thickness self)); ("offset", VInt 1)] |};
    {| md_name := "Grill_Remesh"; md_type := REMESH;
       md_attrs := [("mode", VEnum "VOXEL");
                    ("voxel_size", VFloat (remesh_voxel_size self));
                    ("use_remove_disconnected", VBool true)] |};
    {| md_name := "Grill_LaplacianSmooth"; md_type := LAPLACIANSMOOTH;
       md_attrs := [("iterations", VInt 5); ("use_volume_preserve", VBool true)] |};
    {| md_name := "Grill_Decimate"; md_type := DECIMATE;
       md_attrs := [("ratio", VFloat (decimate_ratio self))] |} ].


(** The vertex set of a face. *)
Definition vertex_set (vs : list nat) : gset nat := list_to_set vs.

(** A face the constructor accepts on its own: at least three vertices, no
    vertex twice. *)
Definition face_valid (vs : list nat) : Prop := 3 ≤ length vs ∧ NoDup vs.

(** Faces that are each valid and have pairwise distinct vertex sets. *)
Definition faces_safe (fs : list (list nat)) : Prop :=
  Forall face_valid fs ∧ NoDup (vertex_set <$> fs).

(** No two of the faces run through the same vertex cycle. *)
Fixpoint distinct_cycles (fs : list (list nat)) : bool :=
  match fs with
  | [] => true
  | f :: fs' => forallb (λ g, negb (same_cycle g f)) fs' && distinct_cycles fs'
  end.

(** Faces the constructor accepts one after the other: each valid, no two
    through the same vertex cycle. *)
Definition faces_accepted (fs : list (list nat)) : Prop :=
  Forall face_valid fs ∧ distinct_cycles fs = true.

Section Vocabulary.
Context {Co : Type} `{!Vector Co}.

(** The vertex lists of the faces flagged selected, in iteration order. *)
Definition selected_faces (bm : BMesh Co) : list (list nat) :=
  f_verts <$> filter (λ f, f_select f = true) (faces bm).

(** The selected vertices. *)
Definition selected_verts (bm : BMesh Co) : list (BMVert Co) :=
  filter (λ v, v_select v = true) (verts bm).

(** Every face vertex names a vertex of the mesh. *)
Definition valid_refs (bm : BMesh Co) : Prop :=
  Forall (λ f, Forall (λ i, i < length (verts bm)) (f_verts f)) (faces bm).

(** The host keeps selection flushed: the vertices of a selected face are
    selected. *)
Definition select_flushed (bm : BMesh Co) : Prop :=
  Forall (λ f, f_select f = true →
               Forall (λ i, v_select <$> verts bm !! i = Some true) (f_verts f))
         (faces bm).

(** [w] is in edit mode on a mesh object whose mesh is [bm]: the first two
    checks of [execute] pass and [bmesh.from_edit_mesh] yields [bm]. *)
Definition editing (w : World Co) (bm : BMesh Co) : Prop :=
  mode w = EDIT_MESH ∧
  ∃ i o m, edit_object w = Some i ∧ objects w !! i = Some o ∧
           ob_type o = MESH ∧ meshes w !! ob_data o = Some m ∧ me_geom m = bm.

(** The geometry of the data-block [execute] creates, if it is there:
    [bpy.data.meshes.new] appends to the meshes of [w]. *)
Definition output_mesh (w w' : World Co) : option (BMesh Co) :=
  me_geom <$> meshes w' !! length (meshes w).

(** A source mesh as the host hands it out. *)
Definition well_formed (bm : BMesh Co) : Prop := valid_refs bm ∧ select_flushed bm.

(** A source mesh as the host holds it: well-formed, and every face with at
    least three vertices, none twice (the host has no other faces). *)
Definition host_mesh (bm : BMesh Co) : Prop :=
  well_formed bm ∧ Forall face_valid (f_verts <$> faces bm).

(** One of the three checks at the head of [execute] fails. *)
Definition precondition_fails (w : World Co) : Prop :=
  mode w ≠ EDIT_MESH ∨
  edit_object w ≫= (objects w !!.) = None ∨
  (∃ o, edit_object w ≫= (objects w !!.) = Some o ∧ ob_type o ≠ MESH) ∨
  (∃ bm, editing w bm ∧ selected_verts bm = []).

(** The world a completed run leaves, given the copied geometry [nb]. *)
Definition finished_world (self : GRILLZ_OT_GenerateGrill)
    (w : World Co) (nb : BMesh Co) : World Co :=
  let c := bounds_center (co <$> verts nb) in
  {| mode := OBJECT;
     edit_object := None;
     active_object := Some (length (objects w));
     meshes := meshes w ++
       [{| me_name := "Grill_Base_Mesh"; me_geom := recenter c nb |}];
     objects := (with_select false <$> objects w) ++
       [{| ob_name := "Grill_Base"; ob_type := MESH;
           ob_data := length (meshes w); ob_select := true;
           ob_location := co_add co_zero c;
           ob_modifiers := modifier_stack self |}];
     collection := collection w ++ [length (objects w)];
     reports := reports w ++
       [(INFO, "Non-destructively generated Grill_Base object.")] |}.

(** The number of distinct vertices among a list of vertex references. *)
Definition distinct_count (l : list nat) : nat := length (remove_dups l).

(** What holds of the new bmesh [nb] and of [vert_map] once the vertex
    references [L] have been looked up and the faces [fs] created. *)
Record copy_inv (bm nb : BMesh Co) (vm : gmap nat nat)
    (L : list nat) (fs : list (list nat)) : Prop := {
  inv_dom : ∀ i, is_Some (vm !! i) ↔ i ∈ L;
  inv_lt : ∀ i k, vm !! i = Some k → k < length (verts nb);
  inv_inj : ∀ i j k, vm !! i = Some k → vm !! j = Some k → i = j;
  inv_surj : ∀ k, k < length (verts nb) → ∃ i, vm !! i = Some k;
  inv_size : size vm = length (verts nb);
  inv_co : ∀ i k, vm !! i = Some k →
           ∃ v, verts bm !! i = Some v ∧ co <$> verts nb !! k = Some (co v);
  inv_faces : Forall2 (λ f fo, Forall2 (λ i k, vm !! i = Some k) f (f_verts fo))
                      fs (faces nb);
  inv_accepted : faces_accepted fs
}.

End Vocabulary.

(** ** Example scenes *)

(** Positions on an integer grid, with the bounding-box centre computed
    componentwise. *)
Definition grid : Type := Z * Z * Z.

Definition grid_zip (f : Z → Z → Z) (p q : grid) : grid :=
  let '(x, y, z) := p in
  let '(x', y', z') := q in
  (f x x', f y y', f z z').

Definition grid_center (l : list grid) : grid :=
  match l with
  | [] => (0, 0, 0)%Z
  | p :: l' =>
    grid_zip (λ lo hi, (lo + hi) / 2)%Z
             (foldr (grid_zip Z.min) p l') (foldr (grid_zip Z.max) p l')
  end.

#[global] Instance grid_vector : Vector grid := {|
  co_zero := (0, 0, 0)%Z;
  co_add := grid_zip Z.add;
  co_sub := grid_zip Z.sub;
  bounds_center := grid_center
|}.

Definition vert (p : grid) (s : bool) : BMVert grid :=
  {| co := p; v_select := s |}.

Definition face (vs : list nat) (s : bool) : BMFace :=
  {| f_verts := vs; f_select := s |}.

(** Two selected triangles sharing the edge 1-2, beside an unselected
    triangle. *)
Definition two_triangles : BMesh grid :=
  {| verts := [vert (0, 0, 0)%Z true; vert (4, 0, 0)%Z true;
               vert (0, 4, 0)%Z true; vert (4, 4, 2)%Z true;
               vert (8, 8, 8)%Z false];
     faces := [face [0; 1; 2] true; face [2; 1; 3] true; face [1; 3; 4] false] |}.

(** A triangle that is in the mesh twice, both copies selected. *)
Definition doubled_triangle : BMesh grid :=
  {| verts := [vert (0, 0, 0)%Z true; vert (4, 0, 0)%Z true;
               vert (0, 4, 0)%Z true];
     faces := [face [0; 1; 2] true; face [0; 1; 2] true] |}.

(** The same doubled triangle, the second copy wound the other way. *)
Definition flipped_triangle : BMesh grid :=
  {| verts := [vert (0, 0, 0)%Z true; vert (4, 0, 0)%Z true;
               vert (0, 4, 0)%Z true];
     faces := [face [0; 1; 2] true; face [2; 1; 0] true] |}.

(** A selected face that names vertex 1 twice. *)
Definition pinched_face : BMesh grid :=
  {| verts := [vert (0, 0, 0)%Z true; vert (4, 0, 0)%Z true;
               vert (0, 4, 0)%Z true];
     faces := [face [0; 1; 1] true] |}.

(** Two selected quads over the same four vertices, crossed: the second
    visits them in another cyclic order. *)
Definition crossed_quads : BMesh grid :=
  {| verts := [vert (0, 0, 0)%Z true; vert (4, 0, 0)%Z true;
               vert (4, 4, 0)%Z true; vert (0, 4, 2)%Z true];
     faces := [face [0; 1; 2; 3] true; face [0; 2; 1; 3] true] |}.

(** Two selected quads through the same cycle, the second started at
    another vertex. *)
Definition rotated_quads : BMesh grid :=
  {| verts := verts crossed_quads;
     faces := [face [0; 1; 2; 3] true; face [2; 3; 0; 1] true] |}.

(** Two of three vertices selected, the face not. *)
Definition loose_verts : BMesh grid :=
  {| verts := [vert (0, 0, 0)%Z true; vert (4, 0, 0)%Z false;
               vert (0, 4, 0)%Z true];
     faces := [face [0; 1; 2] false] |}.

(** Nothing selected. *)
Definition unselected : BMesh grid :=
  {| verts := [vert (0, 0, 0)%Z false; vert (4, 0, 0)%Z false;
               vert (0, 4, 0)%Z false];
     faces := [face [0; 1; 2] false] |}.

(** A scene with one mesh object, [bm], being edited. *)
Definition scene (bm : BMesh grid) : World grid :=
  {| mode := EDIT_MESH; edit_object := Some 0; active_object := Some 0;
     meshes := [{| me_name := "Scan"; me_geom := bm |}];
     objects := [{| ob_name := "Scan"; ob_type := MESH; ob_data := 0;
                    ob_select := true; ob_location := (0, 0, 0)%Z;
                    ob_modifiers := [] |}];
     collection := [0]; reports := [] |}.

(** The same scene in object mode. *)
Definition scene_object_mode (bm : BMesh grid) : World grid :=
  {| mode := OBJECT; edit_object := None; active_object := Some 0;
     meshes := meshes (scene bm); objects := objects (scene bm);
     collection := [0]; reports := [] |}.

(** The operator with its default properties. *)
Definition default_operator : GRILLZ_OT_GenerateGrill :=
  operator_new None None None.

(** ** The panel and the registration *)

(** The three scene properties [register] declares. *)
Definition grillz_thickness_prop : FloatProperty :=
  {| fp_default := 6 # 10; fp_min := 2 # 10; fp_max := 5 # 1 |}.

Definition grillz_remesh_voxel_size_prop : FloatProperty :=
  {| fp_default := 1 # 10; fp_min := 1 # 100; fp_max := 1 # 1 |}.

Definition grillz_decimate_ratio_prop : FloatProperty :=
  {| fp_default := 5 # 10; fp_min := 5 # 100; fp_max := 1 # 1 |}.

(** The values a scene holds for them ([context.scene.grillz_*]). *)
Record Scene := {
  grillz_thickness : Q;
  grillz_remesh_voxel_size : Q;
  grillz_decimate_ratio : Q
}.

(** The scene after the user entered values in the panel's fields; a field
    that was never touched holds the default.  The host stores an entered
    value through the property, as for the operator. *)
Definition scene_new (t v r : option Q) : Scene :=
  {| grillz_thickness :=
       from_option (prop_assign grillz_thickness_prop)
                   (fp_default grillz_thickness_prop) t;
     grillz_remesh_voxel_size :=
       from_option (prop_assign grillz_remesh_voxel_size_prop)
                   (fp_default grillz_remesh_voxel_size_prop) v;
     grillz_decimate_ratio :=
       from_option (prop_assign grillz_decimate_ratio_prop)
                   (fp_default grillz_decimate_ratio_prop) r |}.

(** A scene whose values lie within the declared ranges. *)
Definition scene_in_range (s : Scene) : Prop :=
  (Qle_bool (fp_min grillz_thickness_prop) (grillz_thickness s)
   && Qle_bool (grillz_thickness s) (fp_max grillz_thickness_prop)
   && Qle_bool (fp_min grillz_remesh_voxel_size_prop) (grillz_remesh_voxel_size s)
   && Qle_bool (grillz_remesh_voxel_size s) (fp_max grillz_remesh_voxel_size_prop)
   && Qle_bool (fp_min grillz_decimate_ratio_prop) (grillz_decimate_ratio s)
   && Qle_bool (grillz_decimate_ratio s) (fp_max grillz_decimate_ratio_prop))
  = true.

(** [op.thickness = x], [op.remesh_voxel_size = x], [op.decimate_ratio = x]
    on the properties of an operator button. *)
Definition set_thickness (x : Q) (op : GRILLZ_OT_GenerateGrill)
    : GRILLZ_OT_GenerateGrill :=
  {| thickness := prop_assign thickness_prop x;
     remesh_voxel_size := remesh_voxel_size op;
     decimate_ratio := decimate_ratio op |}.

Definition set_remesh_voxel_size (x : Q) (op : GRILLZ_OT_GenerateGrill)
    : GRILLZ_OT_GenerateGrill :=
  {| thickness := thickness op;
     remesh_voxel_size := prop_assign remesh_voxel_size_prop x;
     decimate_ratio := decimate_ratio op |}.

Definition set_decimate_ratio (x : Q) (op : GRILLZ_OT_GenerateGrill)
    : GRILLZ_OT_GenerateGrill :=
  {| thickness := thickness op;
     remesh_voxel_size := remesh_voxel_size op;
     decimate_ratio := prop_assign decimate_ratio_prop x |}.

(** What a [draw] leaves in a layout. *)
#[warnings="-register-all"]
Inductive Widget :=
| WLabel (text : string) (icon : string)
| WSeparator
| WProp (property : string)
| WOperator (idname : string) (icon : string) (op : GRILLZ_OT_GenerateGrill)
| WBox (children : list Widget)
| WColumn (align : bool) (children : list Widget).

(** [GRILLZ_OT_GenerateGrill.bl_idname] *)
Definition bl_idname : string := "grillz.generate_base".

(** [GRILLZ_PT_MainPanel.draw]: the widgets added to [self.layout]. *)
Definition draw (scene : Scene) : list Widget :=
  let box :=
    WBox [ WLabel "Instructions:" "INFO";
           WColumn true
             [ WLabel "1. Import your dental scan (STL/OBJ)." "NONE";
               WLabel "2. Select the scan object." "NONE";
               WLabel "3. Switch to Edit Mode (Tab key)." "NONE";
               WLabel "4. Select the teeth for the grill." "NONE";
               WLabel "5. Click 'Generate Grill' below." "NONE" ] ] in
  let op := operator_new None None None in        (* col.operator(...) *)
  let op := set_thickness (grillz_thickness scene) op in
  let op := set_remesh_voxel_size (grillz_remesh_voxel_size scene) op in
  let op := set_decimate_ratio (grillz_decimate_ratio scene) op in
  let gen_box :=
    WBox [ WLabel "Phase 1: Generate Base" "MOD_SOLIDIFY";
           WColumn false
             [ WProp "grillz_thickness";
               WProp "grillz_remesh_voxel_size";
               WProp "grillz_decimate_ratio";
               WOperator bl_idname "AUTO" op ] ] in
  [box; WSeparator; gen_box].

(** The operator buttons of a layout, in drawing order. *)
Fixpoint widget_operators (wd : Widget)
    : list (string * GRILLZ_OT_GenerateGrill) :=
  match wd with
  | WOperator idname _ op => [(idname, op)]
  | WBox children | WColumn _ children =>
    (fix go (l : list Widget) :=
       match l with
       | [] => []
       | c :: l' => widget_operators c ++ go l'
       end) children
  | _ => []
  end.

Definition layout_operators (l : list Widget)
    : list (string * GRILLZ_OT_GenerateGrill) :=
  concat (widget_operators <$> l).

(** Clicking the panel's button: the host runs the operator whose
    [bl_idname] the button names, with the properties set on the button. *)
Definition click_generate {Co : Type} `{!Vector Co} (scene : Scene)
    (w : World Co) : option (World Co * Outcome) :=
  match layout_operators (draw scene) with
  | (idname, op) :: _ =>
    if String.eqb idname bl_idname then Some (execute op w) else None
  | [] => None
  end.

(** Exceptions of the host's registry. *)
Inductive RegExc :=
| RegisterValueError        (* register_class: already registered *)
| UnregisterRuntimeError    (* unregister_class: not registered *)
| DelAttributeError.        (* del: no such attribute *)

(** The host's registry: the registered classes and the properties declared
    on [bpy.types.Scene]. *)
Record Registry := {
  bl_classes : gset string;
  scene_properties : gmap string FloatProperty
}.

(** [classes] *)
Definition classes : list string :=
  ["GRILLZ_OT_GenerateGrill"; "GRILLZ_PT_MainPanel"].

(** A loop over [l] that stops at the first exception; the state reached is
    kept. *)
Fixpoint for_each {S X E : Type} (f : S → X → S * option E) (s : S)
    (l : list X) : S * option E :=
  match l with
  | [] => (s, None)
  | x :: l' =>
    match f s x with
    | (s', None) => for_each f s' l'
    | (s', Some e) => (s', Some e)
    end
  end.

(** [bpy.utils.register_class(cls)]: refuses a class that is registered. *)
Definition register_class (r : Registry) (cls : string)
    : Registry * option RegExc :=
  if bool_decide (cls ∈ bl_classes r) then (r, Some RegisterValueError)
  else ({| bl_classes := {[cls]} ∪ bl_classes r;
           scene_properties := scene_properties r |}, None).

(** [bpy.utils.unregister_class(cls)]: refuses a class that is not
    registered. *)
Definition unregister_class (r : Registry) (cls : string)
    : Registry * option RegExc :=
  if bool_decide (cls ∈ bl_classes r) then
    ({| bl_classes := bl_classes r ∖ {[cls]};
        scene_properties := scene_properties r |}, None)
  else (r, Some UnregisterRuntimeError).

(** [bpy.types.Scene.name = prop] *)
Definition scene_setattr (name : string) (p : FloatProperty) (r : Registry)
    : Registry :=
  {| bl_classes := bl_classes r;
     scene_properties := <[name := p]> (scene_properties r) |}.

(** [del bpy.types.Scene.name] *)
Definition scene_delattr (r : Registry) (name : string)
    : Registry * option RegExc :=
  match scene_properties r !! name with
  | Some _ => ({| bl_classes := bl_classes r;
                  scene_properties := delete name (scene_properties r) |}, None)
  | None => (r, Some DelAttributeError)
  end.

(** [register()] *)
Definition register (r : Registry) : Registry * option RegExc :=
  match for_each register_class r classes with
  | (r, Some e) => (r, Some e)
  | (r, None) =>
    let r := scene_setattr "grillz_thickness" grillz_thickness_prop r in
    let r := scene_setattr "grillz_remesh_voxel_size"
                           grillz_remesh_voxel_size_prop r in
    let r := scene_setattr "grillz_decimate_ratio" grillz_decimate_ratio_prop r in
    (r, None)
  end.

(** [unregister()] *)
Definition unregister (r : Registry) : Registry * option RegExc :=
  match for_each unregister_class r (reverse classes) with
  | (r, Some e) => (r, Some e)
  | (r, None) =>
    for_each scene_delattr r
      ["grillz_thickness"; "grillz_remesh_voxel_size"; "grillz_decimate_ratio"]
  end.

(** The names of the scene properties of the add-on. *)
Definition scene_property_names : list string :=
  ["grillz_thickness"; "grillz_remesh_voxel_size"; "grillz_decimate_ratio"].

(** ** More vocabulary *)

(** The vertices the selected faces name, each once, in the order in which
    the face loop first meets them. *)
Definition first_refs_step (acc : list nat) (i : nat) : list nat :=
  if bool_decide (i ∈ acc) then acc else acc ++ [i].

Definition first_refs (L : list nat) : list nat :=
  foldl first_refs_step [] L.

Section MoreVocabulary.
Context {Co : Type}.

(** What holds of the new bmesh and of [vert_map] when [order] lists the
    source vertices copied so far, in the order of their copying. *)
Record order_inv (bm nb : BMesh Co) (vm : gmap nat nat) (order : list nat)
    : Prop := {
  ord_map : ∀ i k, vm !! i = Some k ↔ order !! k = Some i;
  ord_verts : Forall2 (λ i v, co <$> verts bm !! i = Some (co v) ∧
                              v_select v = false)
                      order (verts nb)
}.

End MoreVocabulary.

(** ** More example data *)

(** The two triangles with only one vertex flagged selected; the faces are
    flagged as before. *)
Definition two_triangles_one_flag : BMesh grid :=
  {| verts := [vert (0, 0, 0)%Z true; vert (4, 0, 0)%Z false;
               vert (0, 4, 0)%Z false; vert (4, 4, 2)%Z false;
               vert (8, 8, 8)%Z false];
     faces := faces two_triangles |}.

(** A registry without the add-on. *)
Definition fresh_registry : Registry :=
  {| bl_classes := ∅; scene_properties := ∅ |}.

(** A scene in which a thickness of 100 and a ratio of 0.001 were entered. *)
Definition greedy_scene : Scene :=
  scene_new (Some (100 # 1)%Q) None (Some (1 # 1000)%Q).

(** ** The copy loops *)

Lemma faces_safe_nil : faces_safe [].
Proof. split; [constructor | apply NoDup_nil_2]. Qed.

Lemma faces_accepted_nil : faces_accepted [].
Proof. split; [constructor | done]. Qed.

Lemma distinct_cycles_snoc fs g :
  distinct_cycles (fs ++ [g]) =
  distinct_cycles fs && negb (existsb (same_cycle g) fs).
Proof.
  induction fs as [|f fs IH]; simpl; [done|].
  rewrite forallb_app, IH. simpl.
  destruct (forallb _ fs), (same_cycle g f), (distinct_cycles fs),
    (existsb (same_cycle g) fs); done.
Qed.

Lemma faces_accepted_snoc fs g :
  faces_accepted (fs ++ [g]) ↔
  faces_accepted fs ∧ face_valid g ∧ existsb (same_cycle g) fs = false.
Proof.
  unfold faces_accepted.
  rewrite Forall_app, Forall_singleton, distinct_cycles_snoc,
    andb_true_iff, negb_true_iff.
  tauto.
Qed.

Lemma distinct_cycles_app_l fs gs :
  distinct_cycles (fs ++ gs) = true → distinct_cycles fs = true.
Proof.
  induction fs as [|f fs IH]; simpl; [done|].
  rewrite !andb_true_iff, forallb_app, andb_true_iff.
  intros [[? _] ?]. auto.
Qed.

Lemma faces_accepted_app_l fs gs : faces_accepted (fs ++ gs) → faces_accepted fs.
Proof.
  unfold faces_accepted. rewrite Forall_app.
  intros [[Hfs _] Hc]. split; [done|]. by eapply distinct_cycles_app_l.
Qed.

(** Faces through the same cycle are over the same vertices. *)
Lemma same_cycle_vertex_set (vs ws : list nat) :
  same_cycle vs ws = true → vertex_set vs = vertex_set ws.
Proof.
  unfold same_cycle. rewrite existsb_exists.
  intros (n & _ & [->%bool_decide_eq_true| ->%bool_decide_eq_true]%orb_true_iff);
    unfold vertex_set; apply set_eq; intros x;
    rewrite !elem_of_list_to_set, elem_of_rotate; [done|].
  by rewrite elem_of_reverse.
Qed.

(** Faces with pairwise distinct vertex sets are accepted. *)
Lemma faces_safe_accepted fs : faces_safe fs → faces_accepted fs.
Proof.
  intros [Hvalid Hnd]. split; [done|]. clear Hvalid.
  induction fs as [|f fs IH]; [done|]. simpl in *.
  apply NoDup_cons in Hnd as [Hnotin Hnd].
  rewrite andb_true_iff. split; [|by apply IH].
  apply forallb_forall. intros g Hg%list_elem_of_In.
  apply negb_true_iff. destruct (same_cycle g f) eqn:Hc; [|done].
  exfalso. apply Hnotin, list_elem_of_fmap. exists g.
  split; [|done]. symmetry. by apply same_cycle_vertex_set.
Qed.

Section Loops.
Context {Co : Type} `{!Vector Co}.
Implicit Types (bm nb : BMesh Co) (vm : gmap nat nat).

Lemma copy_inv_init bm : copy_inv bm bmesh_new ∅ [] [].
Proof.
  split; simpl.
  - intros i. rewrite lookup_empty. split; [by intros [? ?] | by intros ?%elem_of_nil].
  - intros i k. by rewrite lookup_empty.
  - intros i j k. by rewrite lookup_empty.
  - intros k ?. lia.
  - by rewrite map_size_empty.
  - intros i k. by rewrite lookup_empty.
  - constructor.
  - apply faces_accepted_nil.
Qed.

(** One iteration of [for vert in face.verts]. *)
Lemma copy_vert_spec bm nb vm nvs L fs done i :
  copy_inv bm nb vm L fs →
  Forall2 (λ i k, vm !! i = Some k) done nvs →
  match copy_vert bm (nb, vm, nvs) i with
  | inr (nb', vm', nvs') =>
      copy_inv bm nb' vm' (L ++ [i]) fs ∧
      Forall2 (λ i k, vm' !! i = Some k) (done ++ [i]) nvs' ∧
      faces nb' = faces nb ∧ i < length (verts bm)
  | inl e => e = ReferenceError ∧ verts bm !! i = None
  end.
Proof.
  intros Hinv Hdone. unfold copy_vert.
  destruct (verts bm !! i) as [v|] eqn:Hv; [|done].
  assert (i < length (verts bm)) as Hi by (by eapply lookup_lt_Some).
  destruct (vm !! i) as [k|] eqn:Hk; simpl.
  - split_and!; [|by apply Forall2_app; [|constructor]|done|done].
    destruct Hinv. split; try done.
    intros j. rewrite elem_of_app, list_elem_of_singleton, inv_dom0.
    split; [by left|]. intros [?| ->]; [done|]. apply inv_dom0. by eexists.
  - assert (∀ j k', vm !! j = Some k' → <[i:=length (verts nb)]> vm !! j = Some k')
      as Hmono.
    { intros j k' Hj. rewrite lookup_insert_ne; [done|congruence]. }
    split_and!; [| |done|done].
    + destruct Hinv. split; simpl.
      * intros j. rewrite elem_of_app, list_elem_of_singleton, <-inv_dom0.
        destruct (decide (i = j)) as [->|Hne].
        -- rewrite lookup_insert_eq. split; [by right|by eexists].
        -- rewrite lookup_insert_ne by done. split; [by left|]. by intros [?|?].
      * intros j k'. rewrite length_app. simpl.
        destruct (decide (i = j)) as [->|Hne].
        -- rewrite lookup_insert_eq. intros [= <-]. lia.
        -- rewrite lookup_insert_ne by done. intros ?%inv_lt0. lia.
      * intros j1 j2 k'.
        destruct (decide (i = j1)) as [<-|Hne1], (decide (i = j2)) as [<-|Hne2];
          rewrite ?lookup_insert_eq, ?lookup_insert_ne by done; try done.
        -- intros [= <-] ?%inv_lt0. lia.
        -- intros ?%inv_lt0 [= <-]. lia.
        -- apply inv_inj0.
      * intros k'. rewrite length_app. simpl. intros Hk'.
        destruct (decide (k' = length (verts nb))) as [->|Hne].
        -- exists i. by rewrite lookup_insert_eq.
        -- destruct (inv_surj0 k') as [j Hj]; [lia|]. exists j. by apply Hmono.
      * rewrite map_size_insert_None by done. rewrite length_app. simpl. lia.
      * intros j k'.
        destruct (decide (i = j)) as [->|Hne].
        -- rewrite lookup_insert_eq. intros [= <-]. exists v. split; [done|].
           rewrite lookup_app_r by done. by rewrite Nat.sub_diag.
        -- rewrite lookup_insert_ne by done. intros Hj.
           destruct (inv_co0 _ _ Hj) as (v' & ? & Hco). exists v'. split; [done|].
           rewrite lookup_app_l by (by eapply inv_lt0). done.
      * eapply Forall2_impl; [exact inv_faces0|]. simpl.
        intros f fo Hf. eapply Forall2_impl; [exact Hf|]. exact Hmono.
      * done.
    + apply Forall2_app.
      * eapply Forall2_impl; [exact Hdone|]. exact Hmono.
      * constructor; [|constructor]. by rewrite lookup_insert_eq.
Qed.

(** The whole of [for vert in face.verts]. *)
Lemma copy_verts_spec bm vs : ∀ nb vm nvs L fs done,
  copy_inv bm nb vm L fs →
  Forall2 (λ i k, vm !! i = Some k) done nvs →
  match foldlM (copy_vert bm) (nb, vm, nvs) vs with
  | inr (nb', vm', nvs') =>
      copy_inv bm nb' vm' (L ++ vs) fs ∧
      Forall2 (λ i k, vm' !! i = Some k) (done ++ vs) nvs' ∧
      faces nb' = faces nb ∧ Forall (λ i, i < length (verts bm)) vs
  | inl e => e = ReferenceError ∧ ¬ Forall (λ i, i < length (verts bm)) vs
  end.
Proof.
  induction vs as [|i vs IH]; intros nb vm nvs L fs done Hinv Hdone; cbn [foldlM].
  - rewrite !app_nil_r. done.
  - pose proof (copy_vert_spec bm nb vm nvs L fs done i Hinv Hdone) as Hstep.
    destruct (copy_vert bm (nb, vm, nvs) i) as [e|[[nb1 vm1] nvs1]].
    + destruct Hstep as [-> Hnone]. split; [done|].
      intros Hall. apply Forall_cons in Hall as [Hlt _].
      apply lookup_ge_None in Hnone. lia.
    + destruct Hstep as (Hinv1 & Hdone1 & Hf1 & Hi).
      specialize (IH nb1 vm1 nvs1 (L ++ [i]) fs (done ++ [i]) Hinv1 Hdone1).
      destruct (foldlM (copy_vert bm) (nb1, vm1, nvs1) vs) as [e|[[nb2 vm2] nvs2]].
      * destruct IH as [-> Hbad]. split; [done|].
        intros Hall. apply Forall_cons in Hall as [_ ?]. done.
      * rewrite <-!(assoc_L (++)) in IH. simpl in IH.
        destruct IH as (? & ? & -> & ?). split_and!; try done.
        by constructor.
Qed.

(** [vert_map] carries membership and duplicate-freeness from a list of
    source vertices to the list of their copies, and back. *)
Lemma vert_map_elem_l vm (vs ks : list nat) i :
  Forall2 (λ i k, vm !! i = Some k) vs ks → i ∈ vs →
  ∃ k, k ∈ ks ∧ vm !! i = Some k.
Proof.
  intros HF (n & Hn)%list_elem_of_lookup.
  destruct (Forall2_lookup_l _ _ _ _ _ HF Hn) as (k & Hk & ?).
  exists k. split; [|done]. apply list_elem_of_lookup. by exists n.
Qed.

Lemma vert_map_elem_r vm (vs ks : list nat) k :
  Forall2 (λ i k, vm !! i = Some k) vs ks → k ∈ ks →
  ∃ i, i ∈ vs ∧ vm !! i = Some k.
Proof.
  intros HF (n & Hn)%list_elem_of_lookup.
  destruct (Forall2_lookup_r _ _ _ _ _ HF Hn) as (i & Hi & ?).
  exists i. split; [|done]. apply list_elem_of_lookup. by exists n.
Qed.

Lemma vert_map_NoDup vm (vs ks : list nat) :
  (∀ i j k, vm !! i = Some k → vm !! j = Some k → i = j) →
  Forall2 (λ i k, vm !! i = Some k) vs ks →
  NoDup vs ↔ NoDup ks.
Proof.
  intros Hinj HF. induction HF as [|i k vs ks Hik HF IH]; [done|].
  rewrite !NoDup_cons, IH.
  assert (i ∈ vs ↔ k ∈ ks) as ->; [|done].
  split.
  - intros Hi. destruct (vert_map_elem_l _ _ _ _ HF Hi) as (k' & ? & Hk').
    by replace k with k' by congruence.
  - intros Hk. destruct (vert_map_elem_r _ _ _ _ HF Hk) as (i' & ? & Hi').
    by rewrite (Hinj _ _ _ Hik Hi').
Qed.

Lemma vertex_set_eq_iff (vs ws : list nat) :
  vertex_set vs = vertex_set ws ↔ ∀ x, x ∈ vs ↔ x ∈ ws.
Proof.
  unfold vertex_set. split.
  - intros Heq x. by rewrite <-!(elem_of_list_to_set (C:=gset nat)), Heq.
  - intros Hx. apply set_eq. intros x. by rewrite !elem_of_list_to_set.
Qed.

(** [vert_map] carries lists of source vertices to lists of copies one to
    one. *)
Lemma vert_map_eq_l (vm : gmap nat nat) (vs vs' ks : list nat) :
  (∀ i j k, vm !! i = Some k → vm !! j = Some k → i = j) →
  Forall2 (λ i k, vm !! i = Some k) vs ks →
  Forall2 (λ i k, vm !! i = Some k) vs' ks → vs = vs'.
Proof.
  intros Hinj HF. revert vs'.
  induction HF as [|i k vs ks Hik HF IH]; intros vs' HF'.
  - by apply Forall2_nil_inv_r in HF'.
  - apply Forall2_cons_inv_r in HF' as (i' & vs'' & Hi'k & HF' & ->).
    f_equal; [by eapply Hinj|by apply IH].
Qed.

Lemma vert_map_eq_r (vm : gmap nat nat) (vs ks ks' : list nat) :
  Forall2 (λ i k, vm !! i = Some k) vs ks →
  Forall2 (λ i k, vm !! i = Some k) vs ks' → ks = ks'.
Proof.
  intros HF. revert ks'.
  induction HF as [|i k vs ks Hik HF IH]; intros ks' HF'.
  - by apply Forall2_nil_inv_l in HF'.
  - apply Forall2_cons_inv_l in HF' as (k' & ks'' & Hik' & HF' & ->).
    f_equal; [congruence|by apply IH].
Qed.

Lemma Forall2_rotate {A B} (P : A → B → Prop) (l : list A) (k : list B) n :
  Forall2 P l k → Forall2 P (rotate n l) (rotate n k).
Proof.
  intros HF. unfold rotate. rewrite (Forall2_length _ _ _ HF).
  apply Forall2_app; [by apply Forall2_drop|by apply Forall2_take].
Qed.

(** The copies of two faces run through the same cycle exactly when the
    faces do. *)
Lemma vert_map_same_cycle (vm : gmap nat nat) (vs ws ks ls : list nat) :
  (∀ i j k, vm !! i = Some k → vm !! j = Some k → i = j) →
  Forall2 (λ i k, vm !! i = Some k) vs ks →
  Forall2 (λ i k, vm !! i = Some k) ws ls →
  same_cycle ks ls = same_cycle vs ws.
Proof.
  intros Hinj Hvs Hws. unfold same_cycle.
  rewrite <-(Forall2_length _ _ _ Hws).
  induction (seq 0 (length ws)) as [|n ns IH]; [done|]. simpl.
  rewrite IH. f_equal. f_equal.
  - apply bool_decide_ext. split.
    + intros ->. eapply vert_map_eq_l; [done..|]. by apply Forall2_rotate.
    + intros ->. eapply vert_map_eq_r; [done|]. by apply Forall2_rotate.
  - apply bool_decide_ext. split.
    + intros ->. eapply vert_map_eq_l; [done..|].
      by apply Forall2_rotate, Forall2_reverse.
    + intros ->. eapply vert_map_eq_r; [done|].
      by apply Forall2_rotate, Forall2_reverse.
Qed.

(** When the new bmesh already has a face through the copied cycle. *)
Lemma face_exists_spec bm nb vm L fs (vs ks : list nat) :
  copy_inv bm nb vm L fs →
  Forall2 (λ i k, vm !! i = Some k) vs ks →
  face_exists nb ks = existsb (same_cycle vs) fs.
Proof.
  intros Hinv Hvs. unfold face_exists.
  pose proof (inv_inj _ _ _ _ _ Hinv) as Hinj.
  generalize (faces nb), (inv_faces _ _ _ _ _ Hinv). clear Hinv.
  intros fos HF.
  induction HF as [|f fo fs' fos Hffo HF IH]; [done|]. simpl.
  rewrite IH. f_equal. by apply (vert_map_same_cycle vm).
Qed.

(** The constructor accepts the copied vertices of a face exactly when the
    face is valid and no face through the same cycle was copied before. *)
Lemma faces_new_spec bm nb vm L fs (vs ks : list nat) :
  copy_inv bm nb vm L fs →
  Forall2 (λ i k, vm !! i = Some k) vs ks →
  match faces_new nb ks with
  | inr nb' =>
      nb' = {| verts := verts nb;
               faces := faces nb ++ [{| f_verts := ks; f_select := false |}] |} ∧
      faces_accepted (fs ++ [vs])
  | inl e => e ≠ ReferenceError ∧ ¬ faces_accepted (fs ++ [vs])
  end.
Proof.
  intros Hinv Hvs. unfold faces_new.
  pose proof (Forall2_length _ _ _ Hvs) as Hlen.
  pose proof (vert_map_NoDup _ _ _ (inv_inj _ _ _ _ _ Hinv) Hvs) as Hnd.
  destruct (length ks <? 3) eqn:H3.
  { apply Nat.ltb_lt in H3. split; [done|].
    intros (_ & [? _] & _)%faces_accepted_snoc. lia. }
  apply Nat.ltb_ge in H3.
  destruct (bool_decide (NoDup ks)) eqn:Hd; simpl.
  2:{ apply bool_decide_eq_false in Hd. split; [done|].
      intros (_ & [_ ?] & _)%faces_accepted_snoc. by apply Hd, Hnd. }
  apply bool_decide_eq_true in Hd. apply Hnd in Hd.
  rewrite (face_exists_spec _ _ _ _ _ _ _ Hinv Hvs).
  destruct (existsb (same_cycle vs) fs) eqn:Hex.
  - split; [done|]. intros (_ & _ & Hnone)%faces_accepted_snoc. congruence.
  - split; [done|]. apply faces_accepted_snoc. split_and!.
    + by destruct Hinv.
    + split; [lia|done].
    + done.
Qed.

(** One iteration of [for face in bm.faces]. *)
Lemma copy_face_spec bm nb vm fs face :
  copy_inv bm nb vm (concat fs) fs →
  match copy_face bm (nb, vm) face with
  | inr (nb', vm') =>
      if f_select face
      then copy_inv bm nb' vm' (concat (fs ++ [f_verts face])) (fs ++ [f_verts face])
      else nb' = nb ∧ vm' = vm
  | inl e =>
      f_select face = true ∧
      ((e = ReferenceError ∧
        ¬ Forall (λ i, i < length (verts bm)) (f_verts face)) ∨
       (e ≠ ReferenceError ∧ ¬ faces_accepted (fs ++ [f_verts face])))
  end.
Proof.
  intros Hinv. unfold copy_face. destruct (f_select face); [|done].
  pose proof (copy_verts_spec bm (f_verts face) nb vm [] (concat fs) fs []
                Hinv (Forall2_nil_2 _ _ _)) as Hloop.
  destruct (foldlM (copy_vert bm) (nb, vm, []) (f_verts face))
    as [e|[[nb1 vm1] ks]].
  { split; [done|]. by left. }
  simpl in Hloop. destruct Hloop as (Hinv1 & Hks & Hfaces & _).
  pose proof (faces_new_spec _ _ _ _ _ _ _ Hinv1 Hks) as Hnew.
  destruct (faces_new nb1 ks) as [e|nb2].
  { split; [done|]. by right. }
  destruct Hnew as [-> Hsafe].
  rewrite concat_app. simpl. rewrite app_nil_r.
  destruct Hinv1. split; simpl; try done.
  apply Forall2_app; [done|]. by constructor.
Qed.

(** The whole of [for face in bm.faces], started after the faces [fs]. *)
Lemma copy_faces_spec bm l : ∀ nb vm fs,
  copy_inv bm nb vm (concat fs) fs →
  match foldlM (copy_face bm) (nb, vm) l with
  | inr (nb', vm') =>
      copy_inv bm nb' vm'
        (concat (fs ++ (f_verts <$> filter (λ f, f_select f = true) l)))
        (fs ++ (f_verts <$> filter (λ f, f_select f = true) l))
  | inl e =>
      (e = ReferenceError ∧
       ¬ Forall (λ f, Forall (λ i, i < length (verts bm)) (f_verts f)) l) ∨
      (e ≠ ReferenceError ∧
       ¬ faces_accepted (fs ++ (f_verts <$> filter (λ f, f_select f = true) l)))
  end.
Proof.
  induction l as [|face l IH]; intros nb vm fs Hinv; cbn [foldlM].
  - simpl. by rewrite app_nil_r.
  - pose proof (copy_face_spec bm nb vm fs face Hinv) as Hstep.
    destruct (copy_face bm (nb, vm) face) as [e|[nb1 vm1]].
    + destruct Hstep as [Hsel [[-> Hbad]|[Hne Hbad]]].
      * left. split; [done|]. by intros [? _]%Forall_cons.
      * right. split; [done|]. rewrite filter_cons_True by done.
        rewrite fmap_cons, cons_middle, (assoc_L (++)).
        by intros ?%faces_accepted_app_l.
    + destruct (f_select face) eqn:Hsel.
      * specialize (IH nb1 vm1 _ Hstep).
        rewrite filter_cons_True by done.
        rewrite fmap_cons, cons_middle, (assoc_L (++)).
        destruct (foldlM (copy_face bm) (nb1, vm1) l) as [e|[nb2 vm2]]; [|done].
        destruct IH as [[-> Hbad]|[Hne Hbad]]; [left|by right].
        split; [done|]. by intros [_ ?]%Forall_cons.
      * destruct Hstep as [-> ->]. specialize (IH nb vm fs Hinv).
        rewrite filter_cons_False by (by rewrite Hsel).
        destruct (foldlM (copy_face bm) (nb, vm) l) as [e|[nb2 vm2]]; [|done].
        destruct IH as [[-> Hbad]|[Hne Hbad]]; [left|by right].
        split; [done|]. by intros [_ ?]%Forall_cons.
Qed.

End Loops.

(** ** The copy as a whole *)

Lemma elem_of_concat {A} (x : A) (ls : list (list A)) :
  x ∈ concat ls ↔ ∃ l, x ∈ l ∧ l ∈ ls.
Proof.
  induction ls as [|l ls IH]; simpl.
  - split; [by intros ?%elem_of_nil|]. by intros (l & _ & ?%elem_of_nil).
  - rewrite elem_of_app, IH. split.
    + intros [?|(l' & ? & ?)]; [exists l|exists l']; by rewrite elem_of_cons; auto.
    + intros (l' & ? & [->|?]%elem_of_cons); [by left|right; by exists l'].
Qed.

Section Extract.
Context {Co : Type} `{!Vector Co}.
Implicit Types (bm nb : BMesh Co) (vm : gmap nat nat).

Lemma copy_selected_faces_spec bm :
  match copy_selected_faces bm with
  | inr (nb, vm) =>
      copy_inv bm nb vm (concat (selected_faces bm)) (selected_faces bm)
  | inl e =>
      (e = ReferenceError ∧ ¬ valid_refs bm) ∨
      (e ≠ ReferenceError ∧ ¬ faces_accepted (selected_faces bm))
  end.
Proof.
  exact (copy_faces_spec bm (faces bm) bmesh_new ∅ [] (copy_inv_init bm)).
Qed.

Lemma copy_inv_faces_length bm nb vm L fs :
  copy_inv bm nb vm L fs → length (faces nb) = length fs.
Proof. intros Hinv. symmetry. exact (Forall2_length _ _ _ (inv_faces _ _ _ _ _ Hinv)). Qed.

(** One new vertex per distinct source vertex. *)
Lemma copy_inv_verts_length bm nb vm L fs :
  copy_inv bm nb vm L fs → length (verts nb) = distinct_count L.
Proof.
  intros Hinv. unfold distinct_count.
  rewrite <-(inv_size _ _ _ _ _ Hinv), <-size_dom.
  rewrite <-(size_list_to_set (C:=gset nat)) by apply NoDup_remove_dups.
  apply set_size_proper. intros i.
  rewrite elem_of_dom, elem_of_list_to_set, elem_of_remove_dups.
  apply (inv_dom _ _ _ _ _ Hinv).
Qed.

(** Every new vertex is used by one of the new faces. *)
Lemma copy_inv_no_orphan bm nb vm fs k :
  copy_inv bm nb vm (concat fs) fs → k < length (verts nb) →
  ∃ fo, fo ∈ faces nb ∧ k ∈ f_verts fo.
Proof.
  intros Hinv Hk. destruct (inv_surj _ _ _ _ _ Hinv k Hk) as [i Hi].
  assert (i ∈ concat fs) as Hin by (apply (inv_dom _ _ _ _ _ Hinv); by eexists).
  apply elem_of_concat in Hin as (f & Hif & Hf).
  apply list_elem_of_lookup in Hf as [n Hn].
  destruct (Forall2_lookup_l _ _ _ _ _ (inv_faces _ _ _ _ _ Hinv) Hn)
    as (fo & Hfo & Hffo).
  exists fo. split; [apply list_elem_of_lookup; by exists n|].
  destruct (vert_map_elem_l _ _ _ _ Hffo Hif) as (k' & ? & Hk').
  by replace k with k' by congruence.
Qed.

Lemma copy_selected_verts_spec bm : ∀ nb,
  faces (copy_selected_verts bm nb) = faces nb ∧
  co <$> verts (copy_selected_verts bm nb)
    = (co <$> verts nb) ++ (co <$> selected_verts bm).
Proof.
  unfold copy_selected_verts, selected_verts.
  induction (verts bm) as [|v l IH]; intros nb; cbn [foldl].
  - by rewrite app_nil_r.
  - destruct (v_select v) eqn:Hv.
    + rewrite filter_cons_True by done.
      destruct (IH (verts_new nb (co v)).1) as [Hf Hv']. rewrite Hf, Hv'. simpl.
      split; [done|]. by rewrite fmap_app, <-(assoc_L (++)).
    + rewrite filter_cons_False by (by rewrite Hv). apply IH.
Qed.

(** Faces that are not selected are skipped. *)
Lemma copy_faces_unselected bm l : ∀ st,
  filter (λ f, f_select f = true) l = [] →
  foldlM (copy_face bm) st l = inr st.
Proof.
  induction l as [|f l IH]; intros [nb vm] Hsel; [done|].
  destruct (f_select f) eqn:Hf.
  - by rewrite filter_cons_True in Hsel.
  - rewrite filter_cons_False in Hsel by (by rewrite Hf).
    cbn [foldlM]. unfold copy_face at 1. rewrite Hf. by apply IH.
Qed.

(** With no face selected the loop over the faces copies nothing, and the
    fallback copies the selected vertices. *)
Lemma extract_no_faces bm :
  selected_faces bm = [] →
  extract bm = inr (copy_selected_verts bm bmesh_new) ∧
  faces (copy_selected_verts bm bmesh_new) = [] ∧
  co <$> verts (copy_selected_verts bm bmesh_new) = co <$> selected_verts bm.
Proof.
  intros Hsel%fmap_nil_inv. unfold extract, copy_selected_faces.
  rewrite copy_faces_unselected by done. simpl.
  destruct (copy_selected_verts_spec bm bmesh_new) as [-> ->]. done.
Qed.

(** With a face selected, a copy that completes ends in the state the
    invariant describes. *)
Lemma extract_faces bm out :
  extract bm = inr out → selected_faces bm ≠ [] →
  ∃ vm, copy_inv bm out vm (concat (selected_faces bm)) (selected_faces bm).
Proof.
  unfold extract. intros Hex Hsel.
  pose proof (copy_selected_faces_spec bm) as Hspec.
  destruct (copy_selected_faces bm) as [e|[nb vm]]; [done|].
  pose proof (copy_inv_faces_length _ _ _ _ _ Hspec) as Hlen.
  destruct (faces nb) eqn:Hf.
  - by destruct (selected_faces bm).
  - exists vm. by simplify_eq.
Qed.

(** The copy completes exactly on selections the constructor accepts. *)
Lemma extract_inr_accepted bm out :
  extract bm = inr out → faces_accepted (selected_faces bm).
Proof.
  unfold extract. intros Hex.
  pose proof (copy_selected_faces_spec bm) as Hspec.
  destruct (copy_selected_faces bm) as [e|[nb vm]]; [done|].
  by destruct Hspec.
Qed.

Lemma extract_ok bm :
  valid_refs bm → faces_accepted (selected_faces bm) → ∃ out, extract bm = inr out.
Proof.
  unfold extract. intros Hvalid Hsafe.
  pose proof (copy_selected_faces_spec bm) as Hspec.
  destruct (copy_selected_faces bm) as [e|[nb vm]].
  - by destruct Hspec as [[_ ?]|[_ ?]].
  - destruct (faces nb); by eexists.
Qed.

Lemma extract_error bm :
  valid_refs bm → ¬ faces_accepted (selected_faces bm) →
  ∃ e, extract bm = inl e ∧ (e = TypeError ∨ e = ValueError).
Proof.
  intros Hvalid Hrefused.
  destruct (extract bm) as [e|out] eqn:Hex.
  - exists e. split; [done|]. unfold extract in Hex.
    pose proof (copy_selected_faces_spec bm) as Hspec.
    destruct (copy_selected_faces bm) as [e'|[nb vm]].
    + simplify_eq. destruct Hspec as [[_ ?]|[? _]]; [done|].
      destruct e; auto. done.
    + by destruct (faces nb).
  - by apply extract_inr_accepted in Hex.
Qed.

End Extract.

(** ** The run of [execute] *)

Lemma alter_snoc {A} (f : A → A) (l : list A) (x : A) n :
  n = length l → alter f n (l ++ [x]) = l ++ [f x].
Proof. intros ->. by rewrite <-(Nat.add_0_r (length l)), alter_app_r. Qed.

Section Execute.
Context {Co : Type} `{!Vector Co}.
Implicit Types (bm nb : BMesh Co) (w : World Co).

Lemma existsb_selected bm :
  existsb v_select (verts bm) = true ↔ selected_verts bm ≠ [].
Proof.
  unfold selected_verts. induction (verts bm) as [|v l IH]; simpl; [done|].
  destruct (v_select v) eqn:Hv.
  - rewrite filter_cons_True by done. done.
  - rewrite filter_cons_False by (by rewrite Hv). done.
Qed.

(** Objects that are not selected are left alone by [origin_set]. *)
Lemma origin_set_skip w (l : list nat) :
  (∀ i o, i ∈ l → objects w !! i = Some o → ob_select o = false) →
  foldl origin_set_object w l = w.
Proof.
  induction l as [|i l IH]; intros Hl; [done|]. cbn [foldl].
  assert (origin_set_object w i = w) as ->.
  { unfold origin_set_object. destruct (objects w !! i) as [o|] eqn:Ho; [|done].
    rewrite (Hl i o) by (done || apply list_elem_of_here). done. }
  apply IH. intros j o Hj. apply Hl. by apply list_elem_of_further.
Qed.

Lemma set_objects_set_objects (os os' : list (Object Co)) w :
  set_objects os (set_objects os' w) = set_objects os w.
Proof. done. Qed.

Lemma modifiers_new_last os g name ty w :
  modifiers_new (length os) name ty (set_objects (os ++ [g]) w) =
  set_objects
    (os ++ [with_modifiers
              (λ mds, mds ++ [{| md_name := name; md_type := ty; md_attrs := [] |}])
              g]) w.
Proof.
  unfold modifiers_new. rewrite set_objects_set_objects. f_equal.
  cbn [objects set_objects]. by apply alter_snoc.
Qed.

Lemma mod_set_last os g attr v w :
  mod_set (length os) attr v (set_objects (os ++ [g]) w) =
  set_objects (os ++ [with_modifiers (set_last_attr attr v) g]) w.
Proof.
  unfold mod_set. rewrite set_objects_set_objects. f_equal.
  cbn [objects set_objects]. by apply alter_snoc.
Qed.

Lemma with_modifiers_compose (f f' : list Modifier → list Modifier)
    (o : Object Co) :
  with_modifiers f (with_modifiers f' o) = with_modifiers (f ∘ f') o.
Proof. done. Qed.

#[local] Opaque modifiers_new mod_set set_objects.

Lemma add_modifiers_spec self w os g :
  ob_modifiers g = [] →
  add_modifiers self (length os) (set_objects (os ++ [g]) w) =
  set_objects (os ++ [with_modifiers (λ _, modifier_stack self) g]) w.
Proof.
  intros Hmods. unfold add_modifiers.
  repeat (rewrite modifiers_new_last || rewrite mod_set_last).
  do 2 f_equal. rewrite !with_modifiers_compose.
  unfold with_modifiers. f_equal. rewrite Hmods. reflexivity.
Qed.

#[local] Transparent modifiers_new mod_set set_objects.

(** Once the three checks have passed, the run is decided by the copy. *)
Lemma execute_extract self w bm :
  editing w bm → selected_verts bm ≠ [] →
  execute self w =
  match extract bm with
  | inl e => ((meshes_new "Grill_Base_Mesh" w).1, Raised e)
  | inr nb => (finished_world self w nb, Returned FINISHED)
  end.
Proof.
  intros (Hmode & i & o & m & Hed & Ho & Hty & Hm & <-) Hsel%existsb_selected.
  unfold execute. rewrite Hmode, Hed. simpl. rewrite Ho, Hty. simpl.
  rewrite Hm, Hsel. simpl.
  destruct (extract (me_geom m)) as [e|nb]; [done|].
  f_equal.
  unfold to_mesh, collection_link, mode_set_OBJECT, select_all_DESELECT,
    select_set_True, set_active. simpl.
  rewrite alter_snoc by done. simpl.
  rewrite fmap_app. simpl.
  rewrite alter_snoc by (by rewrite length_fmap). simpl.
  unfold origin_set. simpl.
  rewrite length_app, length_fmap. simpl.
  rewrite seq_app, foldl_app. simpl.
  rewrite origin_set_skip.
  2:{ simpl. intros j o' Hj%elem_of_seq Ho'.
      rewrite lookup_app_l in Ho' by (rewrite length_fmap; lia).
      rewrite list_lookup_fmap in Ho'.
      destruct (objects w !! j); by simplify_eq/=. }
  unfold origin_set_object. simpl.
  rewrite list_lookup_middle by (by rewrite length_fmap). simpl.
  rewrite list_lookup_middle by done. simpl.
  rewrite !alter_snoc by (by rewrite ?length_fmap). simpl.
  rewrite <-(length_fmap (with_select false) (objects w)).
  erewrite add_modifiers_spec by done. simpl.
  unfold finished_world, report. simpl. by rewrite !length_fmap.
Qed.

(** The ways a run can end. *)
Lemma execute_cases self w :
  (∃ msg, execute self w = (report WARNING msg w, Returned CANCELLED) ∧
          ∀ bm, editing w bm → selected_verts bm = []) ∨
  execute self w = (w, Raised ReferenceError) ∨
  (∃ bm, editing w bm ∧ selected_verts bm ≠ []).
Proof.
  unfold execute.
  destruct (decide (mode w = EDIT_MESH)) as [Hmode|Hmode].
  2:{ left. eexists. rewrite bool_decide_eq_false_2 by done. simpl.
      split; [done|]. by intros bm [? _]. }
  rewrite bool_decide_eq_true_2 by done. simpl.
  destruct (edit_object w) as [i|] eqn:Hed; simpl.
  2:{ left. eexists. split; [done|].
      intros bm (_ & ? & ? & ? & ? & _). congruence. }
  destruct (objects w !! i) as [o|] eqn:Ho.
  2:{ left. eexists. split; [done|].
      intros bm (_ & ? & ? & ? & ? & ? & _). congruence. }
  destruct (decide (ob_type o = MESH)) as [Hty|Hty].
  2:{ left. eexists. rewrite bool_decide_eq_false_2 by done. simpl.
      split; [done|]. intros bm (_ & ? & ? & ? & ? & ? & ? & _). congruence. }
  rewrite bool_decide_eq_true_2 by done. simpl.
  destruct (meshes w !! ob_data o) as [m|] eqn:Hm; [|by right; left].
  destruct (existsb v_select (verts (me_geom m))) eqn:Hsel; simpl.
  - right. right. exists (me_geom m). split.
    + split; [done|]. by exists i, o, m.
    + by apply existsb_selected.
  - left. eexists. split; [done|].
    intros bm (_ & i' & o' & m' & ? & ? & ? & ? & <-).
    assert (m' = m) as -> by congruence.
    destruct (decide (selected_verts (me_geom m) = [])) as [|Hne]; [done|].
    apply existsb_selected in Hne. congruence.
Qed.

End Execute.

(** ** Consequences for a run *)

Section Runs.
Context {Co : Type} `{!Vector Co}.
Implicit Types (bm nb : BMesh Co) (w : World Co).

Lemma execute_finished_inv self w w' :
  execute self w = (w', Returned FINISHED) →
  ∃ bm nb, editing w bm ∧ selected_verts bm ≠ [] ∧
           extract bm = inr nb ∧ w' = finished_world self w nb.
Proof.
  intros Hex. destruct (execute_cases self w) as [(msg & Hc & _)|[Hr|(bm & Hed & Hsel)]].
  - congruence.
  - congruence.
  - rewrite (execute_extract self w bm Hed Hsel) in Hex.
    exists bm. destruct (extract bm) as [e|nb]; [done|].
    exists nb. by simplify_eq.
Qed.

Lemma output_mesh_finished self w nb :
  output_mesh w (finished_world self w nb)
  = Some (recenter (bounds_center (co <$> verts nb)) nb).
Proof. unfold output_mesh. simpl. by rewrite list_lookup_middle. Qed.

Lemma editing_inj w bm bm' : editing w bm → editing w bm' → bm = bm'.
Proof.
  intros (_ & i & o & m & ? & ? & _ & ? & <-) (_ & i' & o' & m' & ? & ? & _ & ? & <-).
  congruence.
Qed.

Lemma flushed_selected bm :
  select_flushed bm → Forall face_valid (selected_faces bm) →
  selected_faces bm ≠ [] → selected_verts bm ≠ [].
Proof.
  unfold select_flushed, selected_faces, selected_verts.
  intros Hfl Hvalid Hne.
  destruct (filter (λ f, f_select f = true) (faces bm)) as [|f l] eqn:Hfilter; [done|].
  assert (f ∈ filter (λ f, f_select f = true) (faces bm)) as Hf
    by (rewrite Hfilter; apply list_elem_of_here).
  apply list_elem_of_filter in Hf as [Hsel Hf].
  rewrite Forall_forall in Hfl. specialize (Hfl f Hf Hsel).
  apply Forall_cons in Hvalid as [[Hlen _] _].
  destruct (f_verts f) as [|i vs]; [simpl in Hlen; lia|].
  apply Forall_cons in Hfl as [Hi _].
  destruct (verts bm !! i) as [v|] eqn:Hv; [|done].
  simpl in Hi. intros Hnil.
  assert (v ∈ filter (λ v, v_select v = true) (verts bm)) as Hin.
  { apply list_elem_of_filter. split; [congruence|].
    apply list_elem_of_lookup. by exists i. }
  rewrite Hnil in Hin. by apply elem_of_nil in Hin.
Qed.

Lemma distinct_count_size (l : list nat) :
  distinct_count l = size (vertex_set l).
Proof.
  unfold distinct_count, vertex_set.
  rewrite <-(size_list_to_set (C:=gset nat)) by apply NoDup_remove_dups.
  apply set_size_proper. intros i.
  by rewrite !elem_of_list_to_set, elem_of_remove_dups.
Qed.

(** Two triangles with four distinct vertices between them are a safe
    selection. *)
Lemma two_triangles_safe (t1 t2 : list nat) :
  length t1 = 3 → length t2 = 3 → NoDup t1 → NoDup t2 →
  distinct_count (t1 ++ t2) = 4 → faces_safe [t1; t2].
Proof.
  intros H1 H2 Hn1 Hn2 H4. split.
  - repeat constructor; (lia || done).
  - simpl. apply NoDup_cons. split; [|apply NoDup_singleton].
    intros Heq%list_elem_of_singleton.
    rewrite distinct_count_size in H4. unfold vertex_set in *.
    rewrite list_to_set_app_L, <-Heq, union_idemp_L in H4.
    rewrite size_list_to_set in H4 by done. lia.
Qed.

End Runs.

(** ** The example scenes are editing scenes *)

Lemma scene_editing bm : editing (scene bm) bm.
Proof. split; [done|]. by eexists 0, _, _. Qed.

(** ** Property ranges *)

(** Assigning to a property stores a value within the property's range. *)
Lemma prop_assign_range (p : FloatProperty) (v : Q) :
  (fp_min p <= fp_max p)%Q →
  (fp_min p <= prop_assign p v)%Q ∧ (prop_assign p v <= fp_max p)%Q.
Proof.
  intros Hp. unfold prop_assign.
  destruct (Qle_bool (fp_min p) v) eqn:Hlo; simpl.
  2:{ split; [apply Qle_refl|done]. }
  apply Qle_bool_iff in Hlo.
  destruct (Qle_bool v (fp_max p)) eqn:Hhi; simpl.
  - apply Qle_bool_iff in Hhi. done.
  - split; [done|apply Qle_refl].
Qed.

(** A property holds its default or an assigned value: always a value
    within its range. *)
Lemma property_range (p : FloatProperty) (arg : option Q) :
  (fp_min p <= fp_default p)%Q → (fp_default p <= fp_max p)%Q →
  (fp_min p <= from_option (prop_assign p) (fp_default p) arg)%Q ∧
  (from_option (prop_assign p) (fp_default p) arg <= fp_max p)%Q.
Proof.
  intros Hlo Hhi. destruct arg as [v|]; simpl; [|done].
  apply prop_assign_range. by eapply Qle_trans.
Qed.

(** ** The claims *)

Section Claims.
Context {Co : Type} `{!Vector Co}.
Implicit Types (bm nb : BMesh Co) (w : World Co).

Lemma recenter_verts_length (c : Co) nb :
  length (verts (recenter c nb)) = length (verts nb).
Proof. unfold recenter. simpl. by rewrite length_fmap. Qed.

(** The selected faces of a mesh whose faces are all valid are valid. *)
Lemma selected_faces_valid bm :
  Forall face_valid (f_verts <$> faces bm) → Forall face_valid (selected_faces bm).
Proof.
  unfold selected_faces. rewrite !Forall_fmap, !Forall_forall.
  intros Hall f [_ Hf]%list_elem_of_filter. by apply Hall.
Qed.

(** A run on a selection of faces the constructor accepts completes, with one
    output vertex per distinct vertex of the selected faces and one output
    face per selected face. *)
Lemma execute_safe_faces self w bm :
  editing w bm → valid_refs bm → selected_verts bm ≠ [] →
  selected_faces bm ≠ [] → faces_accepted (selected_faces bm) →
  ∃ w' out, execute self w = (w', Returned FINISHED) ∧
            output_mesh w w' = Some out ∧
            length (verts out) = distinct_count (concat (selected_faces bm)) ∧
            length (faces out) = length (selected_faces bm).
Proof.
  intros Hed Hvalid Hverts Hfaces Hsafe.
  destruct (extract_ok bm Hvalid Hsafe) as [nb Hnb].
  destruct (extract_faces bm nb Hnb Hfaces) as [vm Hinv].
  eexists _, _. rewrite (execute_extract self w bm Hed Hverts), Hnb.
  split; [done|]. split; [apply output_mesh_finished|].
  rewrite recenter_verts_length. split.
  - by eapply copy_inv_verts_length.
  - simpl. by eapply copy_inv_faces_length.
Qed.

(** A run that meets no selected vertex is cancelled and only reports. *)
Lemma execute_no_selection self w bm :
  editing w bm → selected_verts bm = [] →
  execute self w =
  (report WARNING "You must select the teeth vertices first." w,
   Returned CANCELLED).
Proof.
  intros (Hmode & i & o & m & Hed & Ho & Hty & Hm & <-) Hsel.
  unfold execute. rewrite Hmode, Hed. simpl. rewrite Ho, Hty. simpl.
  rewrite Hm. destruct (existsb v_select (verts (me_geom m))) eqn:Hex; [|done].
  by apply existsb_selected in Hex.
Qed.

(** C1 (amended: no two selected faces may run through the same vertex
    cycle).  For every source mesh as the host holds it (face vertices
    exist, every face has at least three vertices and none twice, the
    vertices of a selected face are selected) in which a non-empty set of
    faces F is selected, no two of them through the same vertex cycle in
    either winding, the run completes and the output mesh has as many
    vertices as there are distinct source vertices referenced by the faces
    of F, and |F| faces. *)
Theorem extract_selected_faces_counts self w bm :
  editing w bm → host_mesh bm →
  selected_faces bm ≠ [] → distinct_cycles (selected_faces bm) = true →
  ∃ w' out, execute self w = (w', Returned FINISHED) ∧
            output_mesh w w' = Some out ∧
            length (verts out) = distinct_count (concat (selected_faces bm)) ∧
            length (faces out) = length (selected_faces bm).
Proof.
  intros Hed [[Hvalid Hfl] Hall] Hfaces Hcycles.
  pose proof (selected_faces_valid bm Hall) as Hsel.
  apply execute_safe_faces; try done. by apply flushed_selected.
Qed.

(** C2.  In every completed run, two selected faces that name the same source
    vertex get output faces that name the same output vertex at the
    corresponding positions, and the output has one vertex per distinct
    source vertex of the selected faces.  In particular, when the selection
    is two triangles with four distinct vertices between them, the run
    completes with exactly 4 vertices and 2 faces. *)
Theorem shared_vertex_invariant self w bm :
  editing w bm →
  (∀ w', execute self w = (w', Returned FINISHED) →
     ∃ out, output_mesh w w' = Some out ∧
     ∀ m n fm fn p q v,
       selected_faces bm !! m = Some fm → selected_faces bm !! n = Some fn →
       fm !! p = Some v → fn !! q = Some v →
       ∃ om on k,
         faces out !! m = Some om ∧ faces out !! n = Some on ∧
         f_verts om !! p = Some k ∧ f_verts on !! q = Some k ∧
         k < length (verts out) ∧
         length (verts out) = distinct_count (concat (selected_faces bm))) ∧
  (∀ t1 t2,
     well_formed bm → selected_faces bm = [t1; t2] →
     length t1 = 3 → length t2 = 3 → NoDup t1 → NoDup t2 →
     distinct_count (t1 ++ t2) = 4 →
     ∃ w' out, execute self w = (w', Returned FINISHED) ∧
               output_mesh w w' = Some out ∧
               length (verts out) = 4 ∧ length (faces out) = 2).
Proof.
  intros Hed. split.
  - intros w' (bm' & nb & Hed' & Hverts & Hnb & ->)%execute_finished_inv.
    rewrite <-(editing_inj _ _ _ Hed Hed') in *. clear Hed'.
    eexists. split; [apply output_mesh_finished|].
    intros m n fm fn p q v Hm Hn Hp Hq.
    assert (selected_faces bm ≠ []) as Hfaces by (by destruct (selected_faces bm)).
    destruct (extract_faces bm nb Hnb Hfaces) as [vm Hinv].
    destruct (Forall2_lookup_l _ _ _ _ _ (inv_faces _ _ _ _ _ Hinv) Hm)
      as (om & Hom & Hfm).
    destruct (Forall2_lookup_l _ _ _ _ _ (inv_faces _ _ _ _ _ Hinv) Hn)
      as (on & Hon & Hfn).
    destruct (Forall2_lookup_l _ _ _ _ _ Hfm Hp) as (k & Hk & Hvk).
    destruct (Forall2_lookup_l _ _ _ _ _ Hfn Hq) as (k' & Hk' & Hvk').
    assert (k' = k) as -> by congruence.
    exists om, on, k. rewrite recenter_verts_length. simpl.
    split_and!; try done.
    + by eapply inv_lt.
    + by eapply copy_inv_verts_length.
  - intros t1 t2 [Hvalid Hfl] Hsel H1 H2 Hn1 Hn2 H4.
    pose proof (two_triangles_safe t1 t2 H1 H2 Hn1 Hn2 H4) as Hsafe.
    rewrite <-Hsel in Hsafe.
    destruct (execute_safe_faces self w bm) as (w' & out & Hex & Hout & Hv & Hf);
      try done.
    { apply flushed_selected; [done|by destruct Hsafe|by rewrite Hsel]. }
    { by rewrite Hsel. }
    { by apply faces_safe_accepted. }
    exists w', out. rewrite Hsel in Hv, Hf. simpl in Hv, Hf.
    rewrite app_nil_r in Hv. split_and!; try done. congruence.
Qed.

(** C3.  When no vertex of the source mesh is selected, the run is cancelled
    with the no-selection warning, and no mesh data-block and no object is
    created. *)
Theorem no_selection_cancelled self w bm :
  editing w bm → selected_verts bm = [] →
  ∃ w', execute self w = (w', Returned CANCELLED) ∧
        reports w' = reports w ++
          [(WARNING, "You must select the teeth vertices first.")] ∧
        meshes w' = meshes w ∧ objects w' = objects w ∧
        collection w' = collection w.
Proof.
  intros Hed Hsel. rewrite (execute_no_selection self w bm Hed Hsel).
  by eexists.
Qed.

(** C4.  When at least one vertex is selected but no face is, the run
    completes through the fallback: the output mesh has one vertex per
    selected source vertex, and no face. *)
Theorem fallback_copies_selected_verts self w bm :
  editing w bm → selected_verts bm ≠ [] → selected_faces bm = [] →
  ∃ w' out, execute self w = (w', Returned FINISHED) ∧
            output_mesh w w' = Some out ∧
            length (verts out) = length (selected_verts bm) ∧
            faces out = [].
Proof.
  intros Hed Hverts Hfaces.
  destruct (extract_no_faces bm Hfaces) as (Hex & Hf & Hv).
  eexists _, _. rewrite (execute_extract self w bm Hed Hverts), Hex.
  split; [done|]. split; [apply output_mesh_finished|].
  rewrite recenter_verts_length. split; [|done].
  by rewrite <-(length_fmap co), Hv, length_fmap.
Qed.

(** C5.  Every completed run leaves, on the new object, exactly five
    modifiers, in this order and with these settings: Weld with merge
    threshold 0.01; Solidify with the thickness property and offset 1;
    voxel Remesh with the voxel-size property and remove-disconnected on;
    Laplacian Smooth with 5 iterations and volume preservation on; Decimate
    with the ratio property. *)
Theorem five_modifiers_in_order self w w' :
  execute self w = (w', Returned FINISHED) →
  ∃ grill_object,
    objects w' !! length (objects w) = Some grill_object ∧
    length (objects w') = S (length (objects w)) ∧
    ob_name grill_object = "Grill_Base" ∧
    ob_modifiers grill_object =
      [ {| md_name := "Grill_Weld"; md_type := WELD;
           md_attrs := [("merge_threshold", VFloat (1 # 100))] |};
        {| md_name := "Grill_Thickness"; md_type := SOLIDIFY;
           md_attrs := [("thickness", VFloat (thickness self));
                        ("offset", VInt 1)] |};
        {| md_name := "Grill_Remesh"; md_type := REMESH;
           md_attrs := [("mode", VEnum "VOXEL");
                        ("voxel_size", VFloat (remesh_voxel_size self));
                        ("use_remove_disconnected", VBool true)] |};
        {| md_name := "Grill_LaplacianSmooth"; md_type := LAPLACIANSMOOTH;
           md_attrs := [("iterations", VInt 5);
                        ("use_volume_preserve", VBool true)] |};
        {| md_name := "Grill_Decimate"; md_type := DECIMATE;
           md_attrs := [("ratio", VFloat (decimate_ratio self))] |} ].
Proof.
  intros (bm & nb & _ & _ & _ & ->)%execute_finished_inv.
  eexists. simpl. split.
  - apply list_lookup_middle. by rewrite length_fmap.
  - rewrite length_app, length_fmap. simpl. split; [lia|done].
Qed.

(** C6.  A run in which one of the three checks fails is cancelled and leaves
    no partial state: the mesh data-blocks, the objects (and with them every
    modifier stack), the collection, the mode and the active object are as
    before; only a warning is reported. *)
Theorem failed_precondition_leaves_no_state self w :
  precondition_fails w →
  ∃ w' msg, execute self w = (w', Returned CANCELLED) ∧
            meshes w' = meshes w ∧ objects w' = objects w ∧
            collection w' = collection w ∧ mode w' = mode w ∧
            edit_object w' = edit_object w ∧
            active_object w' = active_object w ∧
            reports w' = reports w ++ [(WARNING, msg)].
Proof.
  intros [Hmode|[Hnone|[(o & Ho & Hty)|(bm & Hed & Hsel)]]].
  - unfold execute. rewrite bool_decide_eq_false_2 by done. simpl.
    by eexists _, _.
  - unfold execute. destruct (bool_decide (mode w = EDIT_MESH)); simpl.
    + rewrite Hnone. by eexists _, _.
    + by eexists _, _.
  - unfold execute. destruct (bool_decide (mode w = EDIT_MESH)); simpl.
    + rewrite Ho. rewrite bool_decide_eq_false_2 by done. simpl.
      by eexists _, _.
    + by eexists _, _.
  - rewrite (execute_no_selection self w bm Hed Hsel). by eexists _, _.
Qed.

(** C7.  After every run, however it ends, every mesh data-block that
    existed before (the source mesh among them) is as it was: same vertices
    with the same positions and flags, same faces. *)
Theorem source_mesh_unchanged self w :
  take (length (meshes w)) (meshes (execute self w).1) = meshes w ∧
  ∀ bm, editing w bm →
    ∃ i, i < length (meshes w) ∧
         me_geom <$> meshes w !! i = Some bm ∧
         me_geom <$> meshes (execute self w).1 !! i = Some bm.
Proof.
  assert (take (length (meshes w)) (meshes (execute self w).1) = meshes w) as Htake.
  { destruct (execute_cases self w) as [(msg & -> & _)|[->|(bm & Hed & Hsel)]].
    - simpl. by apply take_ge.
    - simpl. by apply take_ge.
    - rewrite (execute_extract self w bm Hed Hsel).
      destruct (extract bm); simpl; apply take_app_length. }
  split; [done|].
  intros bm (_ & i & o & m & _ & _ & _ & Hm & <-).
  exists (ob_data o). pose proof (lookup_lt_Some _ _ _ Hm) as Hlt.
  split; [done|]. rewrite Hm. split; [done|].
  rewrite <-Htake in Hm. rewrite lookup_take_lt in Hm by done. by rewrite Hm.
Qed.

(** C8.  Whatever values are given for the thickness, the voxel size and the
    decimate ratio when the operator is created, they are clamped on
    assignment, so that in every completed run the thickness stored on the
    Solidify modifier lies in [0.2, 5.0], the voxel size stored on the
    Remesh modifier in [0.01, 1.0], and the ratio stored on the Decimate
    modifier in [0.05, 1.0]. *)
Theorem stage_settings_clamped (t v r : option Q) w w' :
  execute (operator_new t v r) w = (w', Returned FINISHED) →
  ∃ grill_object weld solidify remesh smooth decimate x y z,
    objects w' !! length (objects w) = Some grill_object ∧
    ob_modifiers grill_object = [weld; solidify; remesh; smooth; decimate] ∧
    md_type solidify = SOLIDIFY ∧
    getattr "thickness" (md_attrs solidify) = Some (VFloat x) ∧
    (2 # 10 <= x)%Q ∧ (x <= 5 # 1)%Q ∧
    md_type remesh = REMESH ∧
    getattr "voxel_size" (md_attrs remesh) = Some (VFloat y) ∧
    (1 # 100 <= y)%Q ∧ (y <= 1 # 1)%Q ∧
    md_type decimate = DECIMATE ∧
    getattr "ratio" (md_attrs decimate) = Some (VFloat z) ∧
    (5 # 100 <= z)%Q ∧ (z <= 1 # 1)%Q.
Proof.
  intros (bm & nb & _ & _ & _ & ->)%execute_finished_inv.
  destruct (property_range thickness_prop t) as [Ht1 Ht2]; [done..|].
  destruct (property_range remesh_voxel_size_prop v) as [Hv1 Hv2]; [done..|].
  destruct (property_range decimate_ratio_prop r) as [Hr1 Hr2]; [done..|].
  eexists _, _, _, _, _, _, _, _, _. split.
  { simpl. apply list_lookup_middle. by rewrite length_fmap. }
  split; [reflexivity|]. simpl. split_and!; done.
Qed.

(** C9 (amended: the constructor refuses a second face through the same
    vertex cycle, not every second face over the same vertices).  The face
    loop hands every selected face to the constructor unchecked.  On a
    source mesh whose selected faces each have at least three vertices, none
    twice, and of which no two run through the same vertex cycle in either
    winding (in particular when their vertex sets are pairwise distinct) the
    constructor never refuses and the run completes.  On any other
    selection (a selected face with fewer than three vertices or with a
    vertex twice, or two selected faces through the same vertex cycle) the
    constructor refuses: the run ends in its exception, with the new, empty
    mesh data-block already created and no object. *)
Theorem constructor_error_reachability self w bm :
  editing w bm → valid_refs bm → selected_verts bm ≠ [] →
  (faces_safe (selected_faces bm) →
     ∃ w', execute self w = (w', Returned FINISHED)) ∧
  (faces_accepted (selected_faces bm) →
     ∃ w', execute self w = (w', Returned FINISHED)) ∧
  (¬ faces_accepted (selected_faces bm) →
     ∃ w' e, execute self w = (w', Raised e) ∧
             (e = TypeError ∨ e = ValueError) ∧
             meshes w' = meshes w ++
               [{| me_name := "Grill_Base_Mesh"; me_geom := bmesh_new |}] ∧
             objects w' = objects w ∧ collection w' = collection w).
Proof.
  intros Hed Hvalid Hverts.
  rewrite (execute_extract self w bm Hed Hverts).
  assert (faces_accepted (selected_faces bm) →
          ∃ w', match extract bm with
                | inl e => ((meshes_new "Grill_Base_Mesh" w).1, Raised e)
                | inr nb => (finished_world self w nb, Returned FINISHED)
                end = (w', Returned FINISHED)) as Hok.
  { intros Hacc. destruct (extract_ok bm Hvalid Hacc) as [nb ->]. by eexists. }
  split_and!.
  - intros Hsafe. by apply Hok, faces_safe_accepted.
  - done.
  - intros Hrefused.
    destruct (extract_error bm Hvalid Hrefused) as (e & -> & He).
    by eexists _, _.
Qed.

(** C10.  In every completed run whose output mesh has a face, every vertex
    of the output mesh is referenced by one of its faces; the output has no
    face exactly when no source face is selected, which is when the
    vertex-only fallback runs. *)
Theorem no_orphan_vertices self w w' bm :
  editing w bm → execute self w = (w', Returned FINISHED) →
  ∃ out, output_mesh w w' = Some out ∧
         (faces out = [] ↔ selected_faces bm = []) ∧
         (faces out ≠ [] →
          ∀ k, k < length (verts out) →
               ∃ fo, fo ∈ faces out ∧ k ∈ f_verts fo).
Proof.
  intros Hed (bm' & nb & Hed' & Hverts & Hnb & ->)%execute_finished_inv.
  rewrite <-(editing_inj _ _ _ Hed Hed') in *. clear Hed'.
  eexists. split; [apply output_mesh_finished|]. simpl.
  destruct (decide (selected_faces bm = [])) as [Hnil|Hfaces].
  - destruct (extract_no_faces bm Hnil) as (Hex & Hf & _).
    assert (nb = copy_selected_verts bm bmesh_new) as -> by congruence.
    split; [done|]. by rewrite Hf.
  - destruct (extract_faces bm nb Hnb Hfaces) as [vm Hinv].
    pose proof (copy_inv_faces_length _ _ _ _ _ Hinv) as Hlen.
    split.
    + split; [|done]. intros Hf. rewrite Hf in Hlen.
      by destruct (selected_faces bm).
    + intros _ k Hk. rewrite length_fmap in Hk.
      by eapply copy_inv_no_orphan.
Qed.

End Claims.

(** ** The claims on the example scenes *)

(** Closes a decidable goal about concrete data by evaluation. *)
Ltac by_evaluation :=
  lazymatch goal with
  | |- _ ≠ _ => let H := fresh in intros H; vm_compute in H; discriminate H
  | |- _ = _ => vm_compute; reflexivity
  | |- _ => apply (bool_decide_unpack _); vm_compute; exact I
  end.

Lemma two_triangles_well_formed : well_formed two_triangles.
Proof. unfold well_formed, valid_refs, select_flushed. by_evaluation. Defined.

Lemma two_triangles_safe_selection : faces_safe (selected_faces two_triangles).
Proof. unfold faces_safe, face_valid. by_evaluation. Defined.

Lemma doubled_triangle_well_formed : well_formed doubled_triangle.
Proof. unfold well_formed, valid_refs, select_flushed. by_evaluation. Defined.

Lemma doubled_triangle_host_mesh : host_mesh doubled_triangle.
Proof.
  unfold host_mesh, well_formed, valid_refs, select_flushed, face_valid.
  by_evaluation.
Defined.

Lemma doubled_triangle_refused :
  ¬ faces_accepted (selected_faces doubled_triangle).
Proof.
  unfold faces_accepted, face_valid. apply (bool_decide_unpack _).
  vm_compute. exact I.
Defined.

Lemma crossed_quads_host_mesh : host_mesh crossed_quads.
Proof.
  unfold host_mesh, well_formed, valid_refs, select_flushed, face_valid.
  by_evaluation.
Defined.

Lemma crossed_quads_accepted : faces_accepted (selected_faces crossed_quads).
Proof. unfold faces_accepted, face_valid. by_evaluation. Defined.

(** C1, witness: the two crossed quads, over the same four vertices, are
    copied: four vertices, two faces. *)
Lemma extract_selected_faces_counts_witness :
  ∃ w' out,
    execute default_operator (scene crossed_quads) = (w', Returned FINISHED) ∧
    output_mesh (scene crossed_quads) w' = Some out ∧
    length (verts out) = distinct_count (concat (selected_faces crossed_quads)) ∧
    length (faces out) = length (selected_faces crossed_quads).
Proof.
  apply (extract_selected_faces_counts default_operator
           (scene crossed_quads) crossed_quads).
  - apply scene_editing.
  - apply crossed_quads_host_mesh.
  - by_evaluation.
  - reflexivity.
Defined.

(** C1, counterexample: with a triangle that is in the mesh twice, both
    copies selected, the run does not produce an output mesh at all: the
    constructor refuses the second copy. *)
Lemma extract_counts_fail_on_doubled_face :
  editing (scene doubled_triangle) doubled_triangle ∧
  host_mesh doubled_triangle ∧
  selected_faces doubled_triangle ≠ [] ∧
  (execute default_operator (scene doubled_triangle)).2 = Raised ValueError ∧
  ¬ ∃ w' out,
      execute default_operator (scene doubled_triangle)
        = (w', Returned FINISHED) ∧
      output_mesh (scene doubled_triangle) w' = Some out ∧
      length (verts out)
        = distinct_count (concat (selected_faces doubled_triangle)) ∧
      length (faces out) = length (selected_faces doubled_triangle).
Proof.
  split_and!.
  - apply scene_editing.
  - apply doubled_triangle_host_mesh.
  - by_evaluation.
  - by_evaluation.
  - intros (w' & out & Hex & _).
    apply (f_equal snd) in Hex. vm_compute in Hex. discriminate Hex.
Qed.

Lemma two_triangles_finished :
  execute default_operator (scene two_triangles)
  = ((execute default_operator (scene two_triangles)).1, Returned FINISHED).
Proof. by_evaluation. Defined.

(** C2, witness: the two triangles share the vertices 1 and 2; vertex 1 is at
    position 1 of both faces. *)
Lemma shared_vertex_invariant_witness :
  (∃ out,
     output_mesh (scene two_triangles)
       (execute default_operator (scene two_triangles)).1 = Some out ∧
     ∃ om on k,
       faces out !! 0 = Some om ∧ faces out !! 1 = Some on ∧
       f_verts om !! 1 = Some k ∧ f_verts on !! 1 = Some k ∧
       k < length (verts out) ∧
       length (verts out)
         = distinct_count (concat (selected_faces two_triangles))) ∧
  (∃ w' out,
     execute default_operator (scene two_triangles) = (w', Returned FINISHED) ∧
     output_mesh (scene two_triangles) w' = Some out ∧
     length (verts out) = 4 ∧ length (faces out) = 2).
Proof.
  destruct (shared_vertex_invariant default_operator (scene two_triangles)
              two_triangles (scene_editing _)) as [Hshared Hscenario].
  split.
  - destruct (Hshared _ two_triangles_finished) as (out & Hout & Hpair).
    exists out. split; [exact Hout|].
    apply (Hpair 0 1 [0; 1; 2] [2; 1; 3] 1 1 1); reflexivity.
  - apply (Hscenario [0; 1; 2] [2; 1; 3]).
    + apply two_triangles_well_formed.
    + reflexivity.
    + reflexivity.
    + reflexivity.
    + by_evaluation.
    + by_evaluation.
    + reflexivity.
Defined.

(** C3, witness: a scene in which nothing is selected. *)
Lemma no_selection_cancelled_witness :
  ∃ w', execute default_operator (scene unselected) = (w', Returned CANCELLED) ∧
        reports w' = reports (scene unselected) ++
          [(WARNING, "You must select the teeth vertices first.")] ∧
        meshes w' = meshes (scene unselected) ∧
        objects w' = objects (scene unselected) ∧
        collection w' = collection (scene unselected).
Proof.
  apply (no_selection_cancelled default_operator (scene unselected) unselected).
  - apply scene_editing.
  - reflexivity.
Defined.

(** C4, witness: two loose vertices selected, no face. *)
Lemma fallback_copies_selected_verts_witness :
  ∃ w' out,
    execute default_operator (scene loose_verts) = (w', Returned FINISHED) ∧
    output_mesh (scene loose_verts) w' = Some out ∧
    length (verts out) = length (selected_verts loose_verts) ∧
    faces out = [].
Proof.
  apply (fallback_copies_selected_verts default_operator
           (scene loose_verts) loose_verts).
  - apply scene_editing.
  - by_evaluation.
  - reflexivity.
Defined.

(** C5, witness: the run on the two triangles. *)
Lemma five_modifiers_in_order_witness :
  ∃ grill_object,
    objects (execute default_operator (scene two_triangles)).1 !! 1
      = Some grill_object ∧
    length (objects (execute default_operator (scene two_triangles)).1) = 2 ∧
    ob_name grill_object = "Grill_Base" ∧
    md_type <$> ob_modifiers grill_object
      = [WELD; SOLIDIFY; REMESH; LAPLACIANSMOOTH; DECIMATE].
Proof.
  destruct (five_modifiers_in_order default_operator (scene two_triangles) _
              two_triangles_finished) as (g & Hg & Hlen & Hname & Hmods).
  exists g. rewrite Hmods. repeat split; assumption.
Defined.

(** C6, witness: the operator called in object mode. *)
Lemma failed_precondition_leaves_no_state_witness :
  ∃ w' msg,
    execute default_operator (scene_object_mode two_triangles)
      = (w', Returned CANCELLED) ∧
    meshes w' = meshes (scene_object_mode two_triangles) ∧
    objects w' = objects (scene_object_mode two_triangles) ∧
    collection w' = collection (scene_object_mode two_triangles) ∧
    mode w' = mode (scene_object_mode two_triangles) ∧
    edit_object w' = edit_object (scene_object_mode two_triangles) ∧
    active_object w' = active_object (scene_object_mode two_triangles) ∧
    reports w' = reports (scene_object_mode two_triangles) ++ [(WARNING, msg)].
Proof.
  apply (failed_precondition_leaves_no_state default_operator
           (scene_object_mode two_triangles)).
  left. discriminate.
Defined.

(** C7, witness: the source mesh of a completed run and of a run that
    raises. *)
Lemma source_mesh_unchanged_witness :
  (∃ i, i < 1 ∧
     me_geom <$> meshes (scene two_triangles) !! i = Some two_triangles ∧
     me_geom <$> meshes (execute default_operator (scene two_triangles)).1 !! i
       = Some two_triangles) ∧
  (∃ i, i < 1 ∧
     me_geom <$> meshes (scene doubled_triangle) !! i = Some doubled_triangle ∧
     me_geom <$> meshes (execute default_operator (scene doubled_triangle)).1 !! i
       = Some doubled_triangle).
Proof.
  split.
  - apply (proj2 (source_mesh_unchanged default_operator (scene two_triangles))).
    apply scene_editing.
  - apply (proj2 (source_mesh_unchanged default_operator (scene doubled_triangle))).
    apply scene_editing.
Defined.

(** C8, witness: a thickness of 100 and a ratio of 0.001 are asked for. *)
Lemma stage_settings_clamped_witness :
  ∃ grill_object weld solidify remesh smooth decimate x y z,
    objects (execute (operator_new (Some (100 # 1)%Q) None (Some (1 # 1000)%Q))
                     (scene two_triangles)).1 !! 1 = Some grill_object ∧
    ob_modifiers grill_object = [weld; solidify; remesh; smooth; decimate] ∧
    md_type solidify = SOLIDIFY ∧
    getattr "thickness" (md_attrs solidify) = Some (VFloat x) ∧
    (2 # 10 <= x)%Q ∧ (x <= 5 # 1)%Q ∧
    md_type remesh = REMESH ∧
    getattr "voxel_size" (md_attrs remesh) = Some (VFloat y) ∧
    (1 # 100 <= y)%Q ∧ (y <= 1 # 1)%Q ∧
    md_type decimate = DECIMATE ∧
    getattr "ratio" (md_attrs decimate) = Some (VFloat z) ∧
    (5 # 100 <= z)%Q ∧ (z <= 1 # 1)%Q.
Proof.
  apply (stage_settings_clamped (Some (100 # 1)%Q) None (Some (1 # 1000)%Q)
           (scene two_triangles)).
  by_evaluation.
Defined.

(** C9, witness: the two triangles and the crossed quads are copied; the
    doubled triangle makes the constructor refuse, after the data-block was
    created. *)
Lemma constructor_error_reachability_witness :
  (∃ w', execute default_operator (scene two_triangles)
         = (w', Returned FINISHED)) ∧
  (∃ w', execute default_operator (scene crossed_quads)
         = (w', Returned FINISHED)) ∧
  (∃ w' e,
     execute default_operator (scene doubled_triangle) = (w', Raised e) ∧
     (e = TypeError ∨ e = ValueError) ∧
     meshes w' = meshes (scene doubled_triangle) ++
       [{| me_name := "Grill_Base_Mesh"; me_geom := bmesh_new |}] ∧
     objects w' = objects (scene doubled_triangle) ∧
     collection w' = collection (scene doubled_triangle)).
Proof.
  split_and!.
  - apply (proj1 (constructor_error_reachability default_operator
                    (scene two_triangles) two_triangles (scene_editing _)
                    (proj1 two_triangles_well_formed) ltac:(by_evaluation))).
    apply two_triangles_safe_selection.
  - apply (proj1 (proj2 (constructor_error_reachability default_operator
                    (scene crossed_quads) crossed_quads (scene_editing _)
                    (proj1 (proj1 crossed_quads_host_mesh))
                    ltac:(by_evaluation)))).
    apply crossed_quads_accepted.
  - apply (proj2 (proj2 (constructor_error_reachability default_operator
                    (scene doubled_triangle) doubled_triangle (scene_editing _)
                    (proj1 doubled_triangle_well_formed) ltac:(by_evaluation)))).
    apply doubled_triangle_refused.
Defined.

(** C9, counterexample: the two crossed quads are over the same four
    vertices, so their vertex sets are not pairwise distinct, yet the
    constructor accepts both and the run completes. *)
Lemma crossed_quads_are_accepted :
  editing (scene crossed_quads) crossed_quads ∧
  valid_refs crossed_quads ∧
  selected_verts crossed_quads ≠ [] ∧
  Forall face_valid (selected_faces crossed_quads) ∧
  ¬ NoDup (vertex_set <$> selected_faces crossed_quads) ∧
  ¬ faces_safe (selected_faces crossed_quads) ∧
  (execute default_operator (scene crossed_quads)).2 = Returned FINISHED ∧
  ¬ ∃ w' e, execute default_operator (scene crossed_quads) = (w', Raised e).
Proof.
  assert (¬ NoDup (vertex_set <$> selected_faces crossed_quads)) as Hsets.
  { apply (bool_decide_unpack _). vm_compute. exact I. }
  split_and!.
  - apply scene_editing.
  - apply (proj1 (proj1 crossed_quads_host_mesh)).
  - by_evaluation.
  - apply (proj1 crossed_quads_accepted).
  - exact Hsets.
  - intros [_ Hnd]. by apply Hsets.
  - by_evaluation.
  - intros (w' & e & Hex).
    apply (f_equal snd) in Hex. vm_compute in Hex. discriminate Hex.
Qed.

(** C10, witness: the run on the two triangles leaves four vertices, each
    used by a face. *)
Lemma no_orphan_vertices_witness :
  ∃ out,
    output_mesh (scene two_triangles)
      (execute default_operator (scene two_triangles)).1 = Some out ∧
    (faces out = [] ↔ selected_faces two_triangles = []) ∧
    (faces out ≠ [] →
     ∀ k, k < length (verts out) → ∃ fo, fo ∈ faces out ∧ k ∈ f_verts fo).
Proof.
  apply (no_orphan_vertices default_operator (scene two_triangles) _ two_triangles).
  - apply scene_editing.
  - apply two_triangles_finished.
Defined.

(** The doubled triangle with its second copy wound the other way is refused
    in the same way. *)
Example flipped_triangle_raises :
  (execute default_operator (scene flipped_triangle)).2 = Raised ValueError.
Proof. by_evaluation. Qed.

(** The run on the two triangles, evaluated. *)
Example two_triangles_output :
  output_mesh (scene two_triangles)
    (execute default_operator (scene two_triangles)).1
  = Some {| verts := [vert (-2, -2, -1)%Z false; vert (2, -2, -1)%Z false;
                      vert (-2, 2, -1)%Z false; vert (2, 2, 1)%Z false];
            faces := [face [0; 1; 2] false; face [2; 1; 3] false] |}.
Proof. by_evaluation. Qed.

(** A selected face that names a vertex twice is refused as well. *)
Example pinched_face_raises :
  (execute default_operator (scene pinched_face)).2 = Raised ValueError.
Proof. by_evaluation. Qed.

(** The fallback on the loose vertices, evaluated: two points, no face. *)
Example loose_verts_output :
  output_mesh (scene loose_verts)
    (execute default_operator (scene loose_verts)).1
  = Some {| verts := [vert (0, -2, 0)%Z false; vert (0, 2, 0)%Z false];
            faces := [] |}.
Proof. by_evaluation. Qed.

(** ** Further properties of the copy *)

Section MoreCopy.
Context {Co : Type} `{!Vector Co}.
Implicit Types (bm nb : BMesh Co) (vm : gmap nat nat).

(** The faces of the new bmesh name vertices of the new bmesh. *)
Lemma copy_inv_output_refs bm nb vm L fs :
  copy_inv bm nb vm L fs → valid_refs nb.
Proof.
  intros Hinv. unfold valid_refs. apply Forall_forall. intros fo Hfo.
  apply list_elem_of_lookup in Hfo as [n Hn].
  destruct (Forall2_lookup_r _ _ _ _ _ (inv_faces _ _ _ _ _ Hinv) Hn)
    as (f & _ & Hffo).
  apply Forall_forall. intros k Hk.
  destruct (vert_map_elem_r _ _ _ _ Hffo Hk) as (i & _ & Hik).
  by eapply inv_lt.
Qed.

(** Once a face was copied the new bmesh has a vertex. *)
Lemma copy_inv_output_nonempty bm nb vm fs :
  copy_inv bm nb vm (concat fs) fs → fs ≠ [] → verts nb ≠ [].
Proof.
  intros Hinv Hfs Hnone. destruct fs as [|f fs]; [done|].
  destruct (inv_accepted _ _ _ _ _ Hinv) as [Hvalid _].
  apply Forall_cons in Hvalid as [[Hthree _] _].
  destruct f as [|i f]; [simpl in Hthree; lia|].
  assert (i ∈ concat ((i :: f) :: fs)) as Hi by (simpl; apply list_elem_of_here).
  apply (inv_dom _ _ _ _ _ Hinv) in Hi as [k Hk].
  apply (inv_lt _ _ _ _ _ Hinv) in Hk. rewrite Hnone in Hk. simpl in Hk. lia.
Qed.

(** The copy reads the source vertices for their positions only. *)
Lemma copy_vert_positions bm bm' st i :
  co <$> verts bm = co <$> verts bm' →
  copy_vert bm st i = copy_vert bm' st i.
Proof.
  intros Hco. destruct st as [[nb vm] nvs]. unfold copy_vert.
  assert (co <$> verts bm !! i = co <$> verts bm' !! i) as Hi
    by (by rewrite <-!list_lookup_fmap, Hco).
  destruct (verts bm !! i) as [v|], (verts bm' !! i) as [v'|];
    simplify_eq/=; [|done]. by rewrite Hi.
Qed.

Lemma foldlM_ext {A B} (f g : A → B → PyExc + A) (l : list B) : ∀ a,
  (∀ a x, f a x = g a x) → foldlM f a l = foldlM g a l.
Proof.
  induction l as [|x l IH]; intros a Hfg; [done|]. simpl. rewrite Hfg.
  destruct (g a x); [done|]. by apply IH.
Qed.

Lemma copy_selected_faces_positions bm bm' :
  co <$> verts bm = co <$> verts bm' → faces bm = faces bm' →
  copy_selected_faces bm = copy_selected_faces bm'.
Proof.
  intros Hco Hfaces. unfold copy_selected_faces. rewrite <-Hfaces.
  apply foldlM_ext. intros [nb vm] face. unfold copy_face.
  destruct (f_select face); [|done].
  rewrite (foldlM_ext (copy_vert bm) (copy_vert bm')); [done|].
  intros st i. by apply copy_vert_positions.
Qed.

(** X3.  When a face is selected, the copy is decided by the faces and the
    vertex positions alone: two source meshes that differ only in which
    vertices are flagged selected are copied alike. *)
Theorem face_selection_governs bm bm' :
  co <$> verts bm = co <$> verts bm' → faces bm = faces bm' →
  selected_faces bm ≠ [] →
  extract bm = extract bm'.
Proof.
  intros Hco Hfaces Hsel. unfold extract.
  rewrite <-(copy_selected_faces_positions bm bm' Hco Hfaces).
  pose proof (copy_selected_faces_spec bm) as Hspec.
  destruct (copy_selected_faces bm) as [e|[nb vm]]; [done|].
  pose proof (copy_inv_faces_length _ _ _ _ _ Hspec) as Hlen.
  destruct (faces nb); [|done]. by destruct (selected_faces bm).
Qed.

End MoreCopy.

(** ** The order of the copied vertices *)

Lemma first_refs_step_spec (acc : list nat) (i : nat) :
  NoDup acc →
  NoDup (first_refs_step acc i) ∧
  ∀ j, j ∈ first_refs_step acc i ↔ j ∈ acc ∨ j = i.
Proof.
  intros Hnd. unfold first_refs_step. case_bool_decide as Hi.
  - split; [done|]. intros j. split; [by left|]. by intros [?| ->].
  - split.
    + apply NoDup_app. split_and!; [done| |apply NoDup_singleton].
      intros x Hx ->%list_elem_of_singleton. done.
    + intros j. by rewrite elem_of_app, list_elem_of_singleton.
Qed.

(** [first_refs] lists the members of [L], each once. *)
Lemma first_refs_spec (L : list nat) :
  NoDup (first_refs L) ∧ ∀ j, j ∈ first_refs L ↔ j ∈ L.
Proof.
  unfold first_refs.
  assert (∀ acc, NoDup acc →
            NoDup (foldl first_refs_step acc L) ∧
            ∀ j, j ∈ foldl first_refs_step acc L ↔ j ∈ acc ∨ j ∈ L) as Hgen.
  { induction L as [|i L IH]; intros acc Hacc; simpl.
    - split; [done|]. intros j. split; [by left|].
      by intros [?|?%elem_of_nil].
    - destruct (first_refs_step_spec acc i Hacc) as [Hnd Hel].
      destruct (IH _ Hnd) as [Hnd' Hel']. split; [done|].
      intros j. rewrite Hel', Hel, elem_of_cons. tauto. }
  destruct (Hgen [] (NoDup_nil_2 (A:=nat))) as [Hnd Hel]. split; [done|].
  intros j. rewrite Hel. split; [by intros [?%elem_of_nil|?]|by right].
Qed.

Section Order.
Context {Co : Type} `{!Vector Co}.
Implicit Types (bm nb : BMesh Co) (vm : gmap nat nat).

Lemma order_inv_init bm : order_inv bm bmesh_new ∅ [].
Proof.
  split; simpl; [|constructor].
  intros i k. by rewrite lookup_empty, lookup_nil.
Qed.

Lemma copy_vert_order bm nb vm nvs order i nb' vm' nvs' :
  order_inv bm nb vm order →
  copy_vert bm (nb, vm, nvs) i = inr (nb', vm', nvs') →
  order_inv bm nb' vm' (first_refs_step order i).
Proof.
  intros [Hmap Hverts] Hstep. unfold copy_vert in Hstep.
  destruct (verts bm !! i) as [v|] eqn:Hv; [|done].
  pose proof (Forall2_length _ _ _ Hverts) as Hlen.
  unfold first_refs_step.
  destruct (vm !! i) as [k|] eqn:Hk; simplify_eq/=.
  - rewrite bool_decide_eq_true_2; [done|].
    apply list_elem_of_lookup. exists k. by apply Hmap.
  - rewrite bool_decide_eq_false_2.
    2:{ intros [k Hk']%list_elem_of_lookup. apply Hmap in Hk'. congruence. }
    split; simpl.
    + intros j k'. destruct (decide (i = j)) as [<-|Hne].
      * rewrite lookup_insert_eq. split.
        -- intros [= <-]. rewrite <-Hlen. by rewrite list_lookup_middle.
        -- intros Hk'. f_equal.
           destruct (decide (k' < length order)) as [Hlt|Hge].
           ++ rewrite lookup_app_l in Hk' by done. apply Hmap in Hk'. congruence.
           ++ apply lookup_lt_Some in Hk'. rewrite length_app in Hk'.
              simpl in Hk'. lia.
      * rewrite lookup_insert_ne by done. rewrite Hmap. split.
        -- intros Hk'. rewrite lookup_app_l; [done|]. by eapply lookup_lt_Some.
        -- intros Hk'. destruct (decide (k' < length order)) as [Hlt|Hge].
           ++ by rewrite lookup_app_l in Hk'.
           ++ rewrite lookup_app_r in Hk' by lia.
              apply list_lookup_singleton_Some in Hk' as [_ ?]. done.
    + apply Forall2_app; [done|]. constructor; [|constructor].
      by rewrite Hv.
Qed.

Lemma copy_verts_order bm vs : ∀ nb vm nvs order nb' vm' nvs',
  order_inv bm nb vm order →
  foldlM (copy_vert bm) (nb, vm, nvs) vs = inr (nb', vm', nvs') →
  order_inv bm nb' vm' (foldl first_refs_step order vs).
Proof.
  induction vs as [|i vs IH]; intros nb vm nvs order nb' vm' nvs' Hinv Hrun;
    cbn [foldlM foldl] in *.
  - by simplify_eq.
  - destruct (copy_vert bm (nb, vm, nvs) i) as [e|[[nb1 vm1] nvs1]] eqn:Hstep;
      [done|].
    eapply IH; [|exact Hrun]. by eapply copy_vert_order.
Qed.

Lemma copy_face_order bm nb vm order face nb' vm' :
  order_inv bm nb vm order →
  copy_face bm (nb, vm) face = inr (nb', vm') →
  order_inv bm nb' vm'
    (if f_select face then foldl first_refs_step order (f_verts face)
     else order).
Proof.
  intros Hinv Hrun. unfold copy_face in Hrun.
  destruct (f_select face); [|by simplify_eq].
  destruct (foldlM (copy_vert bm) (nb, vm, []) (f_verts face))
    as [e|[[nb1 vm1] ks]] eqn:Hloop; [done|].
  pose proof (copy_verts_order _ _ _ _ _ _ _ _ _ Hinv Hloop) as [Hmap Hverts].
  unfold faces_new in Hrun.
  repeat (case_match; try done). by simplify_eq.
Qed.

Lemma copy_faces_order bm l : ∀ nb vm order nb' vm',
  order_inv bm nb vm order →
  foldlM (copy_face bm) (nb, vm) l = inr (nb', vm') →
  order_inv bm nb' vm'
    (foldl first_refs_step order
       (concat (f_verts <$> filter (λ f, f_select f = true) l))).
Proof.
  induction l as [|face l IH]; intros nb vm order nb' vm' Hinv Hrun;
    cbn [foldlM] in *.
  - by simplify_eq.
  - destruct (copy_face bm (nb, vm) face) as [e|[nb1 vm1]] eqn:Hstep; [done|].
    pose proof (copy_face_order _ _ _ _ _ _ _ Hinv Hstep) as Hinv1.
    destruct (f_select face) eqn:Hsel.
    + rewrite filter_cons_True by done. rewrite fmap_cons. simpl.
      rewrite foldl_app. by eapply IH.
    + rewrite filter_cons_False by (by rewrite Hsel). by eapply IH.
Qed.

(** When the copy of a selection with faces completes, the output
    vertices are the vertices the selected faces name, each once, in the
    order in which the faces first name them, each at the position of its
    source vertex and unselected; and every output face lists, in the
    winding of its source face, the ranks of that face's vertices in this
    order. *)
Theorem extract_first_reference_order bm out :
  extract bm = inr out → selected_faces bm ≠ [] →
  Forall2 (λ i v, co <$> verts bm !! i = Some (co v) ∧ v_select v = false)
          (first_refs (concat (selected_faces bm))) (verts out) ∧
  Forall2 (λ f fo,
             Forall2 (λ i k,
                        first_refs (concat (selected_faces bm)) !! k = Some i)
                     f (f_verts fo))
          (selected_faces bm) (faces out).
Proof.
  intros Hex Hsel.
  destruct (extract_faces bm out Hex Hsel) as [vm Hinv].
  unfold extract in Hex.
  destruct (copy_selected_faces bm) as [e|[nb vm']] eqn:Hcopy; [done|].
  pose proof (copy_selected_faces_spec bm) as Hspec. rewrite Hcopy in Hspec.
  pose proof (copy_inv_faces_length _ _ _ _ _ Hspec) as Hlen.
  assert (out = nb) as ->.
  { destruct (faces nb); [|by simplify_eq]. by destruct (selected_faces bm). }
  pose proof (copy_faces_order bm (faces bm) _ _ _ _ _ (order_inv_init bm) Hcopy)
    as [Hmap Hverts].
  split; [done|].
  eapply Forall2_impl; [exact (inv_faces _ _ _ _ _ Hspec)|]. simpl.
  intros f fo Hf. eapply Forall2_impl; [exact Hf|]. simpl.
  intros i k. apply Hmap.
Qed.

End Order.

(** ** Further properties of a run *)

Section MoreRuns.
Context {Co : Type} `{!Vector Co}.
Implicit Types (bm nb : BMesh Co) (w : World Co).

Lemma recenter_positions (c : Co) nb :
  co <$> verts (recenter c nb) = (λ p, co_sub p c) <$> (co <$> verts nb).
Proof. unfold recenter. simpl. rewrite <-!list_fmap_compose. done. Qed.

Lemma recenter_faces (c : Co) nb : faces (recenter c nb) = faces nb.
Proof. done. Qed.

Lemma recenter_valid_refs (c : Co) nb : valid_refs nb → valid_refs (recenter c nb).
Proof. unfold valid_refs. by rewrite recenter_verts_length. Qed.

(** X1.  In a completed run on a selection with faces, the output vertices
    are the vertices the selected faces name, each once and in the order in
    which the faces first name them, every one at its source position moved
    by the centre of the bounds of those positions; every output face lists,
    in the winding of its source face, the ranks of its vertices in that
    order. *)
Theorem output_is_translated_copy self w w' bm :
  editing w bm → execute self w = (w', Returned FINISHED) →
  selected_faces bm ≠ [] →
  ∃ out ps,
    output_mesh w w' = Some out ∧
    Forall2 (λ i p, co <$> verts bm !! i = Some p)
            (first_refs (concat (selected_faces bm))) ps ∧
    co <$> verts out = (λ p, co_sub p (bounds_center ps)) <$> ps ∧
    Forall2 (λ f fo,
               Forall2 (λ i k,
                          first_refs (concat (selected_faces bm)) !! k = Some i)
                       f (f_verts fo))
            (selected_faces bm) (faces out).
Proof.
  intros Hed (bm' & nb & Hed' & Hverts & Hnb & ->)%execute_finished_inv Hsel.
  rewrite <-(editing_inj _ _ _ Hed Hed') in *. clear Hed'.
  destruct (extract_first_reference_order bm nb Hnb Hsel) as [Hvs Hfs].
  exists (recenter (bounds_center (co <$> verts nb)) nb), (co <$> verts nb).
  split; [apply output_mesh_finished|]. split_and!.
  - apply Forall2_fmap_r. eapply Forall2_impl; [exact Hvs|]. by intros i v [? _].
  - apply recenter_positions.
  - done.
Qed.

(** X2.  In a completed run on a selection without faces, the output
    vertices are the selected vertices, in mesh order, every one at its
    source position moved by the centre of the bounds of the selected
    positions; there is no face. *)
Theorem fallback_is_translated_copy self w w' bm :
  editing w bm → execute self w = (w', Returned FINISHED) →
  selected_faces bm = [] →
  ∃ out,
    output_mesh w w' = Some out ∧ faces out = [] ∧
    co <$> verts out
      = (λ p, co_sub p (bounds_center (co <$> selected_verts bm)))
          <$> (co <$> selected_verts bm).
Proof.
  intros Hed (bm' & nb & Hed' & Hverts & Hnb & ->)%execute_finished_inv Hsel.
  rewrite <-(editing_inj _ _ _ Hed Hed') in *. clear Hed'.
  destruct (extract_no_faces bm Hsel) as (Hex & Hf & Hv).
  assert (nb = copy_selected_verts bm bmesh_new) as -> by congruence.
  eexists. split; [apply output_mesh_finished|]. split; [done|].
  by rewrite recenter_positions, Hv.
Qed.

(** X4.  The output mesh of every completed run has at least one vertex,
    and its faces name only vertices it has. *)
Theorem output_mesh_well_formed self w w' :
  execute self w = (w', Returned FINISHED) →
  ∃ out, output_mesh w w' = Some out ∧ verts out ≠ [] ∧ valid_refs out.
Proof.
  intros (bm & nb & Hed & Hverts & Hnb & ->)%execute_finished_inv.
  eexists. split; [apply output_mesh_finished|].
  assert (verts nb ≠ [] → verts (recenter (bounds_center (co <$> verts nb)) nb) ≠ [])
    as Hne.
  { intros Hne Hnone. apply Hne. apply (f_equal length) in Hnone.
    rewrite recenter_verts_length in Hnone. by destruct (verts nb). }
  destruct (decide (selected_faces bm = [])) as [Hnil|Hfaces].
  - destruct (extract_no_faces bm Hnil) as (Hex & Hf & Hv).
    assert (nb = copy_selected_verts bm bmesh_new) as -> by congruence.
    split.
    + apply Hne. intros Hnone. rewrite Hnone in Hv. simpl in Hv.
      symmetry in Hv. by apply fmap_nil_inv in Hv.
    + apply recenter_valid_refs. unfold valid_refs. rewrite Hf. constructor.
  - destruct (extract_faces bm nb Hnb Hfaces) as [vm Hinv]. split.
    + by eapply Hne, copy_inv_output_nonempty.
    + by eapply recenter_valid_refs, copy_inv_output_refs.
Qed.

(** X5.  A completed run moves the focus to the new object: the scene is in
    object mode, the new object is linked into the collection, is active
    and is the only selected object; every other object keeps its name,
    type, data, location and modifiers. *)
Theorem focus_moves_to_new_object self w w' :
  execute self w = (w', Returned FINISHED) →
  mode w' = OBJECT ∧ edit_object w' = None ∧
  active_object w' = Some (length (objects w)) ∧
  collection w' = collection w ++ [length (objects w)] ∧
  (∃ g, objects w' !! length (objects w) = Some g ∧
        ob_select g = true ∧ ob_type g = MESH ∧
        ob_data g = length (meshes w)) ∧
  (∀ i o', objects w' !! i = Some o' → ob_select o' = true →
           i = length (objects w)) ∧
  (∀ i o, objects w !! i = Some o →
          objects w' !! i = Some (with_select false o)).
Proof.
  intros (bm & nb & _ & _ & _ & ->)%execute_finished_inv. simpl.
  split_and!; try done.
  - eexists. split; [apply list_lookup_middle; by rewrite length_fmap|done].
  - intros i o' Ho' Hsel.
    destruct (decide (i < length (objects w))) as [Hlt|Hge].
    + rewrite lookup_app_l in Ho' by (by rewrite length_fmap).
      rewrite list_lookup_fmap in Ho'.
      destruct (objects w !! i); by simplify_eq/=.
    + apply lookup_lt_Some in Ho' as Hlt.
      rewrite length_app, length_fmap in Hlt. simpl in Hlt. lia.
  - intros i o Ho. rewrite lookup_app_l.
    + by rewrite list_lookup_fmap, Ho.
    + rewrite length_fmap. by eapply lookup_lt_Some.
Qed.

(** X6.  A run that returns reports exactly once, a warning when it is
    cancelled and the confirmation when it finished; a run that raises
    reports nothing. *)
Theorem one_report_per_return self w :
  match (execute self w).2 with
  | Returned CANCELLED =>
      ∃ msg, reports (execute self w).1 = reports w ++ [(WARNING, msg)]
  | Returned FINISHED =>
      reports (execute self w).1 = reports w ++
        [(INFO, "Non-destructively generated Grill_Base object.")]
  | Raised _ => reports (execute self w).1 = reports w
  end.
Proof.
  destruct (execute_cases self w) as [(msg & -> & _)|[->|(bm & Hed & Hsel)]].
  - simpl. by exists msg.
  - done.
  - rewrite (execute_extract self w bm Hed Hsel). by destruct (extract bm).
Qed.

(** X7.  The operator cannot be run twice in a row: a completed run leaves
    object mode, so that running it again is cancelled with the edit-mode
    warning and creates nothing. *)
Theorem second_run_cancelled self self' w w' :
  execute self w = (w', Returned FINISHED) →
  execute self' w' =
    (report WARNING "Please switch to Edit Mode to select teeth." w',
     Returned CANCELLED).
Proof.
  intros (bm & nb & _ & _ & _ & ->)%execute_finished_inv. done.
Qed.

End MoreRuns.

(** ** The panel *)

(** A value within the range of a property is stored as it is. *)
Lemma prop_assign_in_range (p : FloatProperty) (v : Q) :
  Qle_bool (fp_min p) v = true → Qle_bool v (fp_max p) = true →
  prop_assign p v = v.
Proof. intros Hlo Hhi. unfold prop_assign. by rewrite Hlo, Hhi. Qed.

Lemma property_range_bool (p : FloatProperty) (arg : option Q) :
  Qle_bool (fp_min p) (fp_default p) = true →
  Qle_bool (fp_default p) (fp_max p) = true →
  Qle_bool (fp_min p) (from_option (prop_assign p) (fp_default p) arg) = true ∧
  Qle_bool (from_option (prop_assign p) (fp_default p) arg) (fp_max p) = true.
Proof.
  rewrite !Qle_bool_iff. apply property_range.
Qed.

(** The values the host stores in a scene lie within the declared ranges. *)
Lemma scene_new_in_range (t v r : option Q) : scene_in_range (scene_new t v r).
Proof.
  unfold scene_in_range, scene_new. cbn [grillz_thickness
    grillz_remesh_voxel_size grillz_decimate_ratio].
  destruct (property_range_bool grillz_thickness_prop t) as [-> ->]; [done..|].
  destruct (property_range_bool grillz_remesh_voxel_size_prop v) as [-> ->];
    [done..|].
  destruct (property_range_bool grillz_decimate_ratio_prop r) as [-> ->];
    [done..|].
  done.
Qed.

(** The panel has one operator button; on a scene within the ranges it
    carries the scene's three values unchanged. *)
Lemma draw_operator (s : Scene) :
  scene_in_range s →
  layout_operators (draw s) =
  [(bl_idname, {| thickness := grillz_thickness s;
                  remesh_voxel_size := grillz_remesh_voxel_size s;
                  decimate_ratio := grillz_decimate_ratio s |})].
Proof.
  unfold scene_in_range. rewrite !andb_true_iff.
  intros [[[[[Ht1 Ht2] Hv1] Hv2] Hr1] Hr2].
  unfold draw, layout_operators, set_thickness, set_remesh_voxel_size,
    set_decimate_ratio. simpl.
  rewrite (prop_assign_in_range thickness_prop) by done.
  rewrite (prop_assign_in_range remesh_voxel_size_prop) by done.
  rewrite (prop_assign_in_range decimate_ratio_prop) by done.
  done.
Qed.

Section Panel.
Context {Co : Type} `{!Vector Co}.
Implicit Types (w : World Co).

(** X8.  Clicking the panel's button on a scene whose three values lie
    within their ranges runs the operator with exactly these values: when
    the run completes, the Solidify thickness, the Remesh voxel size and
    the Decimate ratio on the new object are the scene's values. *)
Theorem panel_values_reach_modifiers (s : Scene) w w' :
  scene_in_range s →
  click_generate s w = Some (w', Returned FINISHED) →
  ∃ g weld solidify remesh smooth decimate,
    objects w' !! length (objects w) = Some g ∧
    ob_modifiers g = [weld; solidify; remesh; smooth; decimate] ∧
    getattr "thickness" (md_attrs solidify)
      = Some (VFloat (grillz_thickness s)) ∧
    getattr "voxel_size" (md_attrs remesh)
      = Some (VFloat (grillz_remesh_voxel_size s)) ∧
    getattr "ratio" (md_attrs decimate)
      = Some (VFloat (grillz_decimate_ratio s)).
Proof.
  intros Hs. unfold click_generate. rewrite (draw_operator s Hs).
  rewrite String.eqb_refl.
  intros [= (bm & nb & _ & _ & _ & ->)%execute_finished_inv].
  eexists _, _, _, _, _, _. split.
  { simpl. apply list_lookup_middle. by rewrite length_fmap. }
  split; [reflexivity|]. done.
Qed.

(** X9.  Entering values in the panel's three fields and clicking the
    button is the same as calling the operator with these values: the two
    declarations of the properties agree, so the panel never alters a
    value on its way to the operator. *)
Theorem panel_click_is_operator_call (t v r : option Q) w :
  click_generate (scene_new t v r) w = Some (execute (operator_new t v r) w).
Proof.
  unfold click_generate.
  rewrite (draw_operator _ (scene_new_in_range t v r)).
  by rewrite String.eqb_refl.
Qed.

End Panel.

(** ** The registration *)

(** X10.  On a registry that has neither the two classes nor the three scene
    properties, [register] succeeds, after which the classes are registered
    and the scene properties declared, and [unregister] then succeeds and
    gives back the registry as it was. *)
Theorem register_unregister_round_trip (r : Registry) :
  (∀ c, c ∈ classes → c ∉ bl_classes r) →
  (∀ n, n ∈ scene_property_names → scene_properties r !! n = None) →
  ∃ r', register r = (r', None) ∧
        (∀ c, c ∈ classes → c ∈ bl_classes r') ∧
        scene_properties r' !! "grillz_thickness"
          = Some grillz_thickness_prop ∧
        scene_properties r' !! "grillz_remesh_voxel_size"
          = Some grillz_remesh_voxel_size_prop ∧
        scene_properties r' !! "grillz_decimate_ratio"
          = Some grillz_decimate_ratio_prop ∧
        unregister r' = (r, None).
Proof.
  intros Hcls Hprops. destruct r as [cs ps]. simpl in *.
  assert ("GRILLZ_OT_GenerateGrill" ∉ cs) as Hot
    by (apply Hcls; unfold classes; set_solver).
  assert ("GRILLZ_PT_MainPanel" ∉ cs) as Hpt
    by (apply Hcls; unfold classes; set_solver).
  assert (ps !! "grillz_thickness" = None) as Ht
    by (apply Hprops; unfold scene_property_names; set_solver).
  assert (ps !! "grillz_remesh_voxel_size" = None) as Hv
    by (apply Hprops; unfold scene_property_names; set_solver).
  assert (ps !! "grillz_decimate_ratio" = None) as Hr
    by (apply Hprops; unfold scene_property_names; set_solver).
  eexists. split.
  { unfold register, classes. cbn [for_each]. unfold register_class at 1.
    cbn [bl_classes]. rewrite bool_decide_eq_false_2 by done.
    unfold register_class. cbn [bl_classes scene_properties].
    rewrite bool_decide_eq_false_2; [reflexivity|].
    rewrite elem_of_union, elem_of_singleton. by intros [?|?]. }
  unfold scene_setattr. cbn [bl_classes scene_properties].
  split_and!.
  - unfold classes. intros c Hc. rewrite !elem_of_union, !elem_of_singleton.
    apply elem_of_cons in Hc as [->|Hc]; [by right; left|].
    apply list_elem_of_singleton in Hc as ->. by left.
  - by simplify_map_eq.
  - by simplify_map_eq.
  - by simplify_map_eq.
  - unfold unregister, classes. cbn [reverse rev_append for_each].
    unfold unregister_class at 1. cbn [bl_classes scene_properties].
    rewrite bool_decide_eq_true_2 by set_solver.
    unfold unregister_class. cbn [bl_classes scene_properties].
    rewrite bool_decide_eq_true_2 by set_solver.
    cbn [for_each]. unfold scene_delattr at 1. cbn [bl_classes scene_properties].
    rewrite lookup_insert_ne, lookup_insert_ne, lookup_insert_eq by done.
    unfold scene_delattr at 1. cbn [bl_classes scene_properties].
    rewrite lookup_delete_ne, lookup_insert_ne, lookup_insert_eq by done.
    unfold scene_delattr. cbn [bl_classes scene_properties].
    rewrite lookup_delete_ne, lookup_delete_ne, lookup_insert_eq by done.
    f_equal. f_equal.
    + apply set_eq. intros c.
      rewrite !elem_of_difference, !elem_of_union, !elem_of_singleton. split.
      * by intros [[[?|[?|?]] ?] ?].
      * intros Hc. split_and!; [by right; right|by intros ->|by intros ->].
    + apply map_eq. intros k.
      rewrite !lookup_delete, !lookup_insert.
      repeat case_decide; simplify_eq; done.
Qed.

(** ** The further properties on the example scenes *)

Lemma loose_verts_finished :
  execute default_operator (scene loose_verts)
  = ((execute default_operator (scene loose_verts)).1, Returned FINISHED).
Proof. by_evaluation. Defined.

(** X1, witness: the two triangles. *)
Lemma output_is_translated_copy_witness :
  ∃ out ps,
    output_mesh (scene two_triangles)
      (execute default_operator (scene two_triangles)).1 = Some out ∧
    Forall2 (λ i p, co <$> verts two_triangles !! i = Some p)
            (first_refs (concat (selected_faces two_triangles))) ps ∧
    co <$> verts out = (λ p, co_sub p (bounds_center ps)) <$> ps ∧
    Forall2 (λ f fo,
               Forall2 (λ i k,
                          first_refs (concat (selected_faces two_triangles)) !! k
                            = Some i)
                       f (f_verts fo))
            (selected_faces two_triangles) (faces out).
Proof.
  apply (output_is_translated_copy default_operator (scene two_triangles) _
           two_triangles).
  - apply scene_editing.
  - apply two_triangles_finished.
  - by_evaluation.
Defined.

(** X2, witness: the loose vertices. *)
Lemma fallback_is_translated_copy_witness :
  ∃ out,
    output_mesh (scene loose_verts)
      (execute default_operator (scene loose_verts)).1 = Some out ∧
    faces out = [] ∧
    co <$> verts out
      = (λ p, co_sub p (bounds_center (co <$> selected_verts loose_verts)))
          <$> (co <$> selected_verts loose_verts).
Proof.
  apply (fallback_is_translated_copy default_operator (scene loose_verts) _
           loose_verts).
  - apply scene_editing.
  - apply loose_verts_finished.
  - reflexivity.
Defined.

(** X3, witness: the two triangles, with all and with one of their vertices
    flagged. *)
Lemma face_selection_governs_witness :
  extract two_triangles = extract two_triangles_one_flag.
Proof.
  apply face_selection_governs.
  - reflexivity.
  - reflexivity.
  - by_evaluation.
Defined.

(** X4, witness: the two triangles. *)
Lemma output_mesh_well_formed_witness :
  ∃ out,
    output_mesh (scene two_triangles)
      (execute default_operator (scene two_triangles)).1 = Some out ∧
    verts out ≠ [] ∧ valid_refs out.
Proof.
  apply (output_mesh_well_formed default_operator (scene two_triangles)).
  apply two_triangles_finished.
Defined.

(** X5, witness: the two triangles. *)
Lemma focus_moves_to_new_object_witness :
  mode (execute default_operator (scene two_triangles)).1 = OBJECT ∧
  active_object (execute default_operator (scene two_triangles)).1 = Some 1 ∧
  collection (execute default_operator (scene two_triangles)).1 = [0; 1].
Proof.
  destruct (focus_moves_to_new_object default_operator (scene two_triangles) _
              two_triangles_finished) as (Hmode & _ & Hactive & Hcoll & _).
  split_and!; assumption.
Defined.

(** X7, witness: the operator run again after the two triangles. *)
Lemma second_run_cancelled_witness :
  execute default_operator (execute default_operator (scene two_triangles)).1 =
    (report WARNING "Please switch to Edit Mode to select teeth."
       (execute default_operator (scene two_triangles)).1,
     Returned CANCELLED).
Proof.
  apply (second_run_cancelled default_operator default_operator
           (scene two_triangles)).
  apply two_triangles_finished.
Defined.

Lemma greedy_click_finished :
  click_generate greedy_scene (scene two_triangles)
  = Some ((execute (operator_new (Some (100 # 1)%Q) None (Some (1 # 1000)%Q))
                   (scene two_triangles)).1, Returned FINISHED).
Proof. by_evaluation. Defined.

(** X8, witness: the scene in which 100 and 0.001 were entered holds 5 and
    0.05, and these reach the modifiers. *)
Lemma panel_values_reach_modifiers_witness :
  ∃ g weld solidify remesh smooth decimate,
    objects (execute (operator_new (Some (100 # 1)%Q) None (Some (1 # 1000)%Q))
                     (scene two_triangles)).1 !! 1 = Some g ∧
    ob_modifiers g = [weld; solidify; remesh; smooth; decimate] ∧
    getattr "thickness" (md_attrs solidify)
      = Some (VFloat (grillz_thickness greedy_scene)) ∧
    getattr "voxel_size" (md_attrs remesh)
      = Some (VFloat (grillz_remesh_voxel_size greedy_scene)) ∧
    getattr "ratio" (md_attrs decimate)
      = Some (VFloat (grillz_decimate_ratio greedy_scene)).
Proof.
  apply (panel_values_reach_modifiers greedy_scene (scene two_triangles)).
  - reflexivity.
  - apply greedy_click_finished.
Defined.

(** X10, witness: the registry without the add-on. *)
Lemma register_unregister_round_trip_witness :
  ∃ r', register fresh_registry = (r', None) ∧
        (∀ c, c ∈ classes → c ∈ bl_classes r') ∧
        scene_properties r' !! "grillz_thickness"
          = Some grillz_thickness_prop ∧
        scene_properties r' !! "grillz_remesh_voxel_size"
          = Some grillz_remesh_voxel_size_prop ∧
        scene_properties r' !! "grillz_decimate_ratio"
          = Some grillz_decimate_ratio_prop ∧
        unregister r' = (fresh_registry, None).
Proof.
  apply (register_unregister_round_trip fresh_registry).
  - intros c _. apply not_elem_of_empty.
  - intros n _. apply lookup_empty.
Defined.

(** The scene in which 100 and 0.001 were entered, evaluated. *)
Example greedy_scene_values :
  greedy_scene = {| grillz_thickness := 5 # 1;
                    grillz_remesh_voxel_size := 1 # 10;
                    grillz_decimate_ratio := 5 # 100 |}.
Proof. reflexivity. Qed.

(** The precondition of the round trip is needed: a scene property that was
    there before [register] is gone after [unregister]. *)
Example unregister_deletes_foreign_property :
  let r := {| bl_classes := ∅;
              scene_properties := {["grillz_thickness" := thickness_prop]} |} in
  ∃ r' r'', register r = (r', None) ∧ unregister r' = (r'', None) ∧
            scene_properties r'' !! "grillz_thickness" = None.
Proof.
  eexists _, _. split; [by_evaluation|]. split; by_evaluation.
Qed.

(** The crossed quads, evaluated: both faces are copied, over four vertices. *)
Example crossed_quads_output :
  output_mesh (scene crossed_quads)
    (execute default_operator (scene crossed_quads)).1
  = Some {| verts := [vert (-2, -2, -1)%Z false; vert (2, -2, -1)%Z false;
                      vert (2, 2, -1)%Z false; vert (-2, 2, 1)%Z false];
            faces := [face [0; 1; 2; 3] false; face [0; 2; 1; 3] false] |}.
Proof. by_evaluation. Qed.

(** A quad through the same cycle as an earlier one is refused wherever it
    starts. *)
Example rotated_quads_raise :
  (execute default_operator (scene rotated_quads)).2 = Raised ValueError.
Proof. by_evaluation. Qed.
